(** * pygom: composition of an ODE into state-to-state transitions

    A shallow embedding of [pygom/model/_ode_composition.py] and the
    properties of its transition-decomposition functions.

    The module is written against sympy.  Every function of the module
    inspects the structure of an expression ([.args], [.atoms()],
    [isinstance(_, sympy.Mul)]) only after [.expand()], and otherwise
    only adds, subtracts and compares expressions.  Expressions are
    therefore represented by their expanded normal form, for the
    polynomial fragment of sympy: a finite sum of monomials with
    non-zero integer coefficients, a monomial being a finite product of
    symbols raised to positive integer powers. *)

From stdpp Require Import gmap strings list fin_maps sorting.

Open Scope Z_scope.

(** ** The sympy expressions the module works on *)

Module Sympy.

(** A monomial maps the name of a symbol to its exponent; an
    expression maps a monomial to its coefficient.  Two expressions
    are equal ([==] in Python) when they are the same map. *)
Abbreviation mono := (gmap string positive).
Abbreviation expr := (gmap (gmap string positive) Z).

Definition Integer (z : Z) : expr :=
  if decide (z = 0) then ∅ else {[ ∅ := z ]}.

Definition Symbol (s : string) : expr := {[ {[ s := 1%positive ]} := 1 ]}.

(** [a + b]: coefficients of like monomials are summed and a
    monomial whose coefficient becomes zero disappears, as
    [Add.flatten] does. *)
Definition add (a b : expr) : expr :=
  union_with (λ x y, if decide (x + y = 0) then None else Some (x + y)) a b.

Definition neg (a : expr) : expr := Z.opp <$> a.

Definition sub (a b : expr) : expr := add a (neg b).

Definition mul_mono (m1 m2 : mono) : mono :=
  union_with (λ p q, Some (p + q)%positive) m1 m2.

(** A single term [c * m]; no term at all when [c] is zero. *)
Definition term (c : Z) (m : mono) : expr :=
  if decide (c = 0) then ∅ else {[ m := c ]}.

(** [(a * b).expand()]: every term of [a] times every term of [b]. *)
Definition mul (a b : expr) : expr :=
  foldr add ∅
    (t1 ← map_to_list a;
     (λ t2 : mono * Z, term (t1.2 * t2.2) (mul_mono t1.1 t2.1))
       <$> map_to_list b).

(** *** The tree sympy shows for an expanded expression

    [Integer] and [Symbol] are atoms (no [args]); [x**p] with
    [p >= 2] is a [Pow] with args [(x, p)]; a term with a coefficient
    other than [1], or with several symbols, is a [Mul] whose args are
    its factors ([-x] is [Mul(-1, x)]); an expression of several
    terms is an [Add] whose args are the terms. *)
Inductive node :=
| NInteger (z : Z)
| NSymbol (s : string)
| NPow (s : string) (p : positive)
| NMul (c : Z) (m : mono)
| NAdd (ts : list (mono * Z)).

Definition node_of (e : expr) : node :=
  match map_to_list e with
  | [] => NInteger 0
  | [(m, c)] =>
      match map_to_list m with
      | [] => NInteger c
      | [(s, p)] =>
          if decide (c = 1)
          then (if decide (p = 1%positive) then NSymbol s else NPow s p)
          else NMul c m
      | _ => NMul c m
      end
  | ts => NAdd ts
  end.

(** A factor of a product: a symbol or a power of a symbol. *)
Definition factor (sp : string * positive) : expr :=
  {[ {[ sp.1 := sp.2 ]} := 1 ]}.

(** [e.args] *)
Definition args (e : expr) : list expr :=
  match node_of e with
  | NInteger _ | NSymbol _ => []
  | NPow s p => [Symbol s; Integer (Z.pos p)]
  | NMul c m =>
      (if decide (c = 1) then [] else [Integer c])
        ++ (factor <$> map_to_list m)
  | NAdd ts => (λ t : mono * Z, {[ t.1 := t.2 ]}) <$> ts
  end.

(** [isinstance(e, sympy.Mul)] *)
Definition is_Mul (e : expr) : bool :=
  match node_of e with NMul _ _ => true | _ => false end.

(** [isinstance(e, sympy.Pow)] *)
Definition is_Pow (e : expr) : bool :=
  match node_of e with NPow _ _ => true | _ => false end.

Definition atoms_mono (m : mono) : list expr :=
  sp ← map_to_list m;
  Symbol sp.1 ::
    (if decide (sp.2 = 1%positive) then [] else [Integer (Z.pos sp.2)]).

Definition atoms_term (t : mono * Z) : list expr :=
  if decide (t.1 = ∅) then [Integer t.2]
  else (if decide (t.2 = 1) then [] else [Integer t.2]) ++ atoms_mono t.1.

(** [e.atoms()]: the set of symbols and numbers at the leaves of the
    tree, kept as a list without repetition. *)
Definition atoms (e : expr) : list expr :=
  match map_to_list e with
  | [] => [Integer 0]
  | ts => remove_dups (ts ≫= atoms_term)
  end.

(** [e.expand()] and [sympy.simplify(e)]: an expression is kept in
    expanded normal form, which both leave as it is up to algebraic
    equality; the module looks at the result of [simplify] only
    through [== 0], [+], [-] and [expand()]. *)
Definition expand (e : expr) : expr := e.
Definition simplify (e : expr) : expr := e.

End Sympy.

Import Sympy.

(** ** Python values around the expressions *)

(** The exceptions the module can raise: a failed [assert], [reduce] of
    an empty sequence, an index outside a matrix, and matrices of
    different shapes in [fx - fx1]. *)
Inductive exn := AssertionError | TypeError | IndexError | ShapeError.

Inductive result (A : Type) :=
| Ok (a : A)
| Raise (e : exn).
Arguments Ok {A} a.
Arguments Raise {A} e.

#[global] Instance result_ret : MRet result := λ A a, Ok a.
#[global] Instance result_bind : MBind result := λ A B f r,
  match r with Ok a => f a | Raise e => Raise e end.
#[global] Instance result_fmap : FMap result := λ A B f r,
  match r with Ok a => Ok (f a) | Raise e => Raise e end.

(** A [for] loop whose body may raise. *)
Fixpoint for_each {A S : Type} (body : S → A → result S) (s : S) (l : list A)
  : result S :=
  match l with
  | [] => Ok s
  | a :: l' => s' ← body s a; for_each body s' l'
  end.

(** [enumerate(l)] *)
Definition enumerate {A : Type} (l : list A) : list (nat * A) :=
  zip (seq 0 (length l)) l.

(** [range(a, b)] *)
Definition range (a b : nat) : list nat := seq a (b - a).

(** A dense sympy matrix: its shape and its entries, row after row.
    An ODE vector (a matrix of one column) is the list of its entries. *)
Record Matrix := mkMatrix { rows : nat; cols : nat; _mat : list expr }.

Definition wf_Matrix (A : Matrix) : Prop :=
  length (_mat A) = (rows A * cols A)%nat.

(** [sympy.zeros(r, c)] *)
Definition zeros (r c : nat) : Matrix :=
  mkMatrix r c (replicate (r * c) (Integer 0)).

(** [A[i,j]] *)
Definition getitem (A : Matrix) (i j : nat) : result expr :=
  if decide (i < rows A ∧ j < cols A)%nat
  then match _mat A !! (i * cols A + j)%nat with
       | Some e => Ok e
       | None => Raise IndexError
       end
  else Raise IndexError.

(** [A[i,j] = v] *)
Definition setitem (A : Matrix) (i j : nat) (v : expr) : result Matrix :=
  if decide (i < rows A ∧ j < cols A)%nat
  then Ok (mkMatrix (rows A) (cols A) (<[(i * cols A + j)%nat := v]> (_mat A)))
  else Raise IndexError.

(** [A[i,j] += t] *)
Definition iadd (A : Matrix) (i j : nat) (t : expr) : result Matrix :=
  v ← getitem A i j; setitem A i j (add v t).

(** The entries of the slices [A[:,i]] and [A[i,:]], in the order in
    which [sum] goes through them. *)
Definition col_slice (A : Matrix) (i : nat) : list expr :=
  omap (λ j, _mat A !! (j * cols A + i)%nat) (seq 0 (rows A)).
Definition row_slice (A : Matrix) (i : nat) : list expr :=
  take (cols A) (drop (i * cols A) (_mat A)).

(** [sum(l)]: Python starts from the integer 0 and adds from the left. *)
Definition sum (l : list expr) : expr := foldl add (Integer 0) l.

(** A dictionary from expressions to counts, as [_getExpression] and
    [_getLeaf] fill it. *)
Abbreviation dict := (list (expr * nat)).

(** [inputDict.setdefault(k, 0); inputDict[k] += 1] *)
Fixpoint dict_incr (k : expr) (d : dict) : dict :=
  match d with
  | [] => [(k, 1%nat)]
  | (k', n) :: d' =>
      if decide (k = k') then (k', S n) :: d' else (k', n) :: dict_incr k d'
  end.

(** [set(l)], kept as a list without repetition, and [s1 - s2]. *)
Definition set_of (l : list expr) : list expr := remove_dups l.
Definition set_minus (s1 s2 : list expr) : list expr := list_difference s1 s2.

(** ** The functions of [_ode_composition.py] *)

Section OdeComposition.

(** Python 2 leaves the order of [dict.keys()] and of [list(set)]
    unspecified.  The functions below take that order as given by
    [dict_keys] and [set_elements]; what is proved of them holds for
    every order ([KeysOrder], [ElementsOrder]). *)
Variable dict_keys : dict → list expr.
Variable set_elements : list expr → list expr.

Definition KeysOrder : Prop := ∀ d : dict, dict_keys d ≡ₚ d.*1.
Definition ElementsOrder : Prop := ∀ s : list expr, set_elements s ≡ₚ s.

Definition _expressionLength (e : expr) : nat :=
  if is_Mul e then length (args e)
  else if is_Pow e then 0%nat
  else 0%nat.

(** The recursion of [_getLeaf] and of [_getExpression] goes down the
    tree of the expression; [fuel] bounds its depth (two calls reach
    the factors of the terms of a sum, see [_getLeaf_fuel] and
    [_getExpression_fuel]). *)
Fixpoint _getLeaf (fuel : nat) (e : expr) (inputDict : dict) : dict :=
  match fuel with
  | O => inputDict
  | S fuel' =>
      let t := args e in
      foldl (λ d ti,
               if Nat.eqb (_expressionLength ti) 0 then dict_incr ti d
               else _getLeaf fuel' ti d)
            inputDict t
  end.

Fixpoint _getExpression (fuel : nat) (e : expr) (inputDict : dict) : dict :=
  match fuel with
  | O => inputDict
  | S fuel' =>
      let t := if decide (1 < length (atoms e))%nat then args e else [e] in
      let tLengths := _expressionLength <$> t in
      if forallb (λ n, Nat.eqb n 0) tLengths
      then dict_incr e inputDict
      else foldl (λ d ti,
                    if Nat.eqb (_expressionLength ti) 0 then dict_incr ti d
                    else if is_Mul ti then _getExpression fuel' ti d
                    else if is_Pow ti then dict_incr ti d
                    else d)
                 inputDict t
  end.

Definition getExpressions (e : expr) : list expr :=
  dict_keys (_getExpression 2 (expand e) []).

Definition getLeafs (e : expr) : list expr :=
  dict_keys (_getLeaf 2 (expand e) []).

(** [full_output] keeps its default, [False]. *)
Definition _findMatchingExpression (expressionList : list expr) : list expr :=
  i ← range 0 (length expressionList - 1);
  j ← range (i + 1) (length expressionList);
  let b := add (expressionList !!! i) (expressionList !!! j) in
  if decide (b = Integer 0)
  then [expressionList !!! i; expressionList !!! j]
  else [].

Definition _transitionListToMatchedTuple (transitionList : list expr)
  : list (expr * expr) :=
  i ← range 0 (length transitionList - 1);
  j ← range (i + 1) (length transitionList);
  let b := add (transitionList !!! i) (transitionList !!! j) in
  if decide (b = Integer 0)
  then if decide (Integer (-1) ∈ getLeafs (transitionList !!! i))
       then [(transitionList !!! j, transitionList !!! i)]
       else [(transitionList !!! i, transitionList !!! j)]
  else [].

(** [reduce(lambda x,y: x+y, ls)], which raises on an empty [ls]. *)
Definition reduce_concat (ls : list (list expr)) : result (list expr) :=
  match ls with
  | [] => Raise TypeError
  | l :: ls' => Ok (foldl app l ls')
  end.

(** Returns the pair that [full_output=True] asks for; with
    [full_output=False] the caller receives its first component. *)
Definition getUnmatchedExpressionVector (exprVec : list expr)
  : result (list expr * list (expr * expr)) :=
  transitionList ← reduce_concat (getExpressions <$> exprVec);
  let matchedTransitionList := _findMatchingExpression transitionList in
  let out :=
    set_elements (set_minus (set_of transitionList)
                            (set_of matchedTransitionList)) in
  Ok (out, _transitionListToMatchedTuple matchedTransitionList).

(** Called with [outTuple=True] throughout the module. *)
Definition getMatchingExpressionVector (exprVec : list expr)
  : list (expr * expr) :=
  let transitionList := foldl (λ acc e, acc ++ getExpressions e) [] exprVec in
  let transitionList :=
    set_elements (set_of (_findMatchingExpression transitionList)) in
  _transitionListToMatchedTuple transitionList.

Definition _hasExpression (eq e : expr) : bool :=
  let out := false in
  let aExpand := expand eq in
  let out := if decide (e = aExpand) then true else out in
  let out := if decide (e ∈ args aExpand) then true else out in
  out.

Definition _findIndex (eqVec : list expr) (e : expr) : list nat :=
  omap (λ ia : nat * expr, if _hasExpression ia.2 e then Some ia.1 else None)
       (enumerate eqVec).

(** The incidence array, row by row.  The loops visit every cell once,
    starting from the zeros of [numpy.zeros]; the entries stay among
    -1, 0 and 1, which the floats of numpy hold exactly. *)
Definition generateDirectedDependencyGraph
    (odeMatrix : list expr) (transitionList : option (list (expr * expr)))
  : list (list Z) :=
  let transitionList :=
    match transitionList with
    | None => getMatchingExpressionVector odeMatrix
    | Some l => l
    end in
  (λ a,
     (λ transitionTuple : expr * expr,
        let '(t1, t2) := transitionTuple in
        let b := 0 in
        let b := if _hasExpression a t1 then b + -1 else b in
        let b := if _hasExpression a t2 then b + 1 else b in
        b) <$> transitionList) <$> odeMatrix.

Definition pureTransitionToOde (A : Matrix) : result (list expr) :=
  let '(nrow, ncol) := (rows A, cols A) in
  if decide (nrow = ncol)
  then
    let B := (λ i, sub (sum (col_slice A i)) (sum (row_slice A i)))
               <$> range 0 nrow in
    Ok (simplify <$> B)
  else Raise AssertionError.

(** [fx - fx1] on vectors, which raises when the shapes differ. *)
Definition vec_sub (u v : list expr) : result (list expr) :=
  if decide (length u = length v)
  then Ok (zip_with sub u v)
  else Raise ShapeError.

(** The vector that [stripBDFromOde] returns.  [fxCopy] starts as a
    copy of [fx] and is the only vector written to; the version with
    an explicit store, [Store.stripBDFromOde], models the writes. *)
Definition stripBDFromOde (fx : list expr) (bdList : option (list expr))
  : result (list expr) :=
  bdList ← match bdList with
           | None => fst <$> getUnmatchedExpressionVector fx
           | Some l => Ok l
           end;
  let fxCopy :=
    (λ fxi,
       let termInExpr : list bool :=
         (λ x : expr, bool_decide (x ∈ args (expand fxi))) <$> bdList in
       foldl (λ (c : expr) (jt : nat * expr),
                sub c (if (termInExpr !!! jt.1 : bool) then jt.2 else Integer 0))
             fxi (enumerate bdList)) <$> fx in
  Ok (expand <$> (simplify <$> fxCopy)).

(** One turn of the outer loop of [_odeToPureTransition]: the matrix
    after it and the flag [remain]. *)
Definition _odeToPureTransition_pair
    (fx : list expr) (t1 t2 : expr) (A : Matrix) : result (Matrix * bool) :=
  for_each (λ (st : Matrix * bool) (ia : nat * expr),
              let '(i, aFrom) := ia in
              if _hasExpression aFrom t2
              then for_each (λ (st : Matrix * bool) (ja : nat * expr),
                               let '(j, aTo) := ja in
                               if _hasExpression aTo t1
                               then A' ← iadd st.1 i j t1; Ok (A', false)
                               else Ok st)
                            st (enumerate fx)
              else Ok st)
           (A, true) (enumerate fx).

Definition _odeToPureTransition
    (fx : list expr) (termList : option (list (expr * expr)))
    (A : option Matrix) : result (Matrix * list (expr * expr)) :=
  let termList :=
    match termList with
    | None => getMatchingExpressionVector fx
    | Some l => l
    end in
  let A :=
    match A with
    | None => zeros (length fx) (length fx)
    | Some A => A
    end in
  for_each (λ (st : Matrix * list (expr * expr)) (tt : expr * expr),
              let '(A, remainTransition) := st in
              let '(t1, t2) := tt in
              r ← _odeToPureTransition_pair fx t1 t2 A;
              let '(A, remain) := (r : Matrix * bool) in
              if remain then Ok (A, remainTransition ++ [(t1, t2)])
              else Ok (A, remainTransition))
           (A, []) termList.

(** The indices of the states whose symbol is an atom of [t1]. *)
Definition possibleOrigin_of (states : list string) (t1 : expr) : list nat :=
  omap (λ ns : nat * string,
          if decide (Symbol ns.2 ∈ atoms t1) then Some ns.1 else None)
       (enumerate states).

Definition _singleOriginTransition
    (fx : list expr) (termList : list (expr * expr)) (states : list string)
    (A : option Matrix) : result (Matrix * list (expr * expr)) :=
  let A :=
    match A with
    | None => zeros (length fx) (length fx)
    | Some A => A
    end in
  for_each (λ (st : Matrix * list (expr * expr)) (kt : nat * (expr * expr)),
              let '(A, remainTermList) := st in
              let '(k, transitionTuple) := kt in
              let '(t1, t2) := transitionTuple in
              let possibleOrigin := possibleOrigin_of states t1 in
              if decide (length possibleOrigin = 1%nat)
              then
                A ← for_each (λ (A : Matrix) (jf : nat * expr),
                                let '(j, fxj) := jf in
                                if bool_decide (possibleOrigin !!! 0%nat ≠ j)
                                   && _hasExpression fxj t1
                                then iadd A (possibleOrigin !!! 0%nat) j t1
                                else Ok A)
                             A (enumerate fx);
                Ok (A, remainTermList)
              else Ok (A, remainTermList ++ [transitionTuple]))
           (A, []) (enumerate termList).

(** Returns the pair that [output_remain=True] asks for; with
    [output_remain=False] the caller receives the matrix alone. *)
Definition odeToPureTransition (fx : list expr) (states : list string)
  : result (Matrix * list (expr * expr)) :=
  bt ← getUnmatchedExpressionVector fx;
  let '(bdList, termList) := (bt : list expr * list (expr * expr)) in
  fx ← stripBDFromOde fx (Some bdList);
  (* we now have fx with pure transitions *)
  ar ← _singleOriginTransition fx termList states None;
  let '(A, remainTermList) := (ar : Matrix * list (expr * expr)) in
  ar ← _odeToPureTransition fx (Some remainTermList) (Some A);
  let '(A, remainTermList) := (ar : Matrix * list (expr * expr)) in
  (* checking if our decomposition is correct *)
  fx1 ← pureTransitionToOde A;
  d ← vec_sub fx fx1;
  let diffOde := simplify <$> d in
  if forallb (λ x, bool_decide (x = Integer 0)) diffOde
  then Ok (A, remainTermList)
  else
    let diffTerm := filter (λ x, x ≠ Integer 0) diffOde in
    let diffTermList := getMatchingExpressionVector diffTerm in
    let diffTermList := (λ xy : expr * expr, (xy.2, xy.1)) <$> diffTermList in
    ar ← _odeToPureTransition diffOde (Some diffTermList) (Some A);
    let '(AA, remainTermList) := (ar : Matrix * list (expr * expr)) in
    fx2 ← pureTransitionToOde AA;
    Ok (AA, remainTermList).

End OdeComposition.

(** A term has the literal [-1] among its leaf factors:
    [sympy.Integer(-1) in getLeafs(e)]. *)
Definition has_literal_minus_one (dict_keys : dict → list expr) (e : expr)
  : Prop :=
  Integer (-1) ∈ getLeafs dict_keys e.

(** The order in which the proofs below run the functions on examples:
    keys in order of insertion, elements in order of first occurrence. *)
Definition insertion_keys (d : dict) : list expr := d.*1.
Definition first_elements (s : list expr) : list expr := s.

(** ** [stripBDFromOde] with the store written out

    A Python variable holds the address of a matrix; [fx.copy()],
    [sympy.simplify], [sympy.Matrix] and [expand] make new matrices and
    [fxCopy[i] -= term] writes into the one [fxCopy] names.  The loop
    over [enumerate(fx)] reads [fx] from the store at every turn. *)
Module Store.

Abbreviation store := (gmap nat (list expr)).

Definition alloc (σ : store) (v : list expr) : store * nat :=
  let l := fresh (dom σ) in (<[l := v]> σ, l).

(** [M[i] = x] for the matrix at address [l] *)
Definition write (σ : store) (l i : nat) (x : expr) : store :=
  <[l := <[i := x]> (σ !!! l)]> σ.

Definition stripBDFromOde
    (dict_keys : dict → list expr) (set_elements : list expr → list expr)
    (σ : store) (fx : nat) (bdList : option (list expr))
  : store * result nat :=
  match σ !! fx with
  | None => (σ, Raise TypeError)
  | Some v =>
      match (match bdList with
             | None =>
                 fst <$> getUnmatchedExpressionVector dict_keys set_elements v
             | Some l => Ok l
             end) with
      | Raise e => (σ, Raise e)
      | Ok bdList =>
          let '(σ, fxCopy) := alloc σ v in
          let σ :=
            foldl (λ (σ : store) (i : nat),
                     let fxi : expr := (σ !!! fx) !!! i in
                     let termInExpr : list bool :=
                       (λ x : expr, bool_decide (x ∈ args (expand fxi)))
                         <$> bdList in
                     foldl (λ (σ : store) (jt : nat * expr),
                              write σ fxCopy i
                                (sub ((σ !!! fxCopy) !!! i)
                                     (if (termInExpr !!! jt.1 : bool)
                                      then jt.2 else Integer 0)))
                           σ (enumerate bdList))
                  σ (range 0 (length v)) in
          let '(σ, simplified) := alloc σ (simplify <$> (σ !!! fxCopy)) in
          let '(σ, mutable) := alloc σ (σ !!! simplified) in
          let '(σ, expanded) := alloc σ (expand <$> (σ !!! mutable)) in
          (σ, Ok expanded)
      end
  end.

End Store.

(** ** The reconstruction in the words of the specification *)

(** The spec's words: the sum over [j] of [f j], for [j] below [n]. *)
Fixpoint big_add (n : nat) (f : nat → expr) : expr :=
  match n with
  | O => Integer 0
  | S n' => add (big_add n' f) (f n')
  end.

(** [matrix[i,j]] *)
Definition entry (A : Matrix) (i j : nat) : expr :=
  _mat A !!! (i * cols A + j)%nat.

(** Inbound minus outbound: the sum over [j] of [matrix[j,i]] minus the
    sum over [j] of [matrix[i,j]]. *)
Definition inbound_minus_outbound (A : Matrix) (i : nat) : expr :=
  sub (big_add (rows A) (λ j, entry A j i))
      (big_add (cols A) (λ j, entry A i j)).

(** ** Definitions used to state the properties *)

(** What the inner loop of [stripBDFromOde] leaves in entry [i] of
    the copy. *)
Definition stripped_entry (bdList : list expr) (fxi : expr) (x : expr) : expr :=
  foldl (λ (c : expr) (jt : nat * expr),
           sub c (if ((((λ x : expr, bool_decide (x ∈ args (expand fxi)))
                          <$> bdList) : list bool) !!! jt.1 : bool)
                  then jt.2 else Integer 0))
        x (enumerate bdList).

(** Column [j] of the incidence array. *)
Definition column (B : list (list Z)) (j : nat) : list Z :=
  (λ row : list Z, row !!! j) <$> B.

Definition col_sum (col : list Z) : Z := foldr Z.add 0 col.

Definition count_of (z : Z) (col : list Z) : nat :=
  length (filter (λ b, b = z) col).

(** The invariant of the specification for one column of the incidence
    matrix: it sums to zero and holds exactly one [-1] and one [+1]. *)
Definition incidence_column_ok (col : list Z) : Prop :=
  col_sum col = 0 ∧ count_of (-1) col = 1%nat ∧ count_of 1 col = 1%nat.


(** The terms of the expanded form of an equation: what the
    specification calls its expanded additive arguments. *)
Definition additive_args (e : expr) : list expr :=
  (λ t : mono * Z, {[ t.1 := t.2 ]}) <$> map_to_list (expand e).

(** [B] has the shape of [A] and as many entries as its shape says. *)
Definition shaped_like (A B : Matrix) : Prop :=
  rows B = rows A ∧ cols B = cols A ∧ wf_Matrix B.

(** ** Every order of iteration at once

    The results of the functions for all the orders in which Python may
    go through the dictionaries and the sets.  [orders_sound] below
    shows that whatever [dict_keys] and [set_elements] do, the result
    of [odeToPureTransition] is in the list. *)

#[global] Instance exn_eq_dec : EqDecision exn.
Proof. solve_decision. Defined.
#[global] Instance result_eq_dec {A} `{EqDecision A} : EqDecision (result A).
Proof. solve_decision. Defined.
#[global] Instance Matrix_eq_dec : EqDecision Matrix.
Proof. solve_decision. Defined.

(** One element of each list, in all the ways. *)
Fixpoint choices {A} (ls : list (list A)) : list (list A) :=
  match ls with
  | [] => [[]]
  | l :: ls' => x ← l; xs ← choices ls'; [x :: xs]
  end.

Definition getExpressions_orders (e : expr) : list (list expr) :=
  permutations (_getExpression 2 (expand e) []).*1.

Definition getUnmatchedExpressionVector_orders (exprVec : list expr)
  : list (result (list expr * list (expr * expr))) :=
  tls ← choices (getExpressions_orders <$> exprVec);
  match reduce_concat tls with
  | Raise e => [Raise e]
  | Ok transitionList =>
      let matchedTransitionList := _findMatchingExpression transitionList in
      out ← permutations (set_minus (set_of transitionList)
                                    (set_of matchedTransitionList));
      [Ok (out, _transitionListToMatchedTuple insertion_keys
                  matchedTransitionList)]
  end.

Definition getMatchingExpressionVector_orders (exprVec : list expr)
  : list (list (expr * expr)) :=
  tls ← choices (getExpressions_orders <$> exprVec);
  let transitionList := foldl app [] tls in
  tl ← permutations (set_of (_findMatchingExpression transitionList));
  [_transitionListToMatchedTuple insertion_keys tl].

(** [odeToPureTransition] from the matched terms to the check of the
    reconstruction: the matrix, the remainder and [diffOde]. *)
Definition first_passes (fx : list expr) (states : list string)
    (bt : list expr * list (expr * expr))
  : result (Matrix * list (expr * expr) * list expr) :=
  fx ← stripBDFromOde insertion_keys first_elements fx (Some bt.1);
  ar ← _singleOriginTransition fx bt.2 states None;
  let '(A, remainTermList) := (ar : Matrix * list (expr * expr)) in
  ar ← _odeToPureTransition insertion_keys first_elements
         fx (Some remainTermList) (Some A);
  let '(A, remainTermList) := (ar : Matrix * list (expr * expr)) in
  fx1 ← pureTransitionToOde A;
  d ← vec_sub fx fx1;
  Ok (A, remainTermList, simplify <$> (d : list expr)).

(** The refinement of [odeToPureTransition], from the matched terms of
    the residual on. *)
Definition refinement (diffOde : list expr)
    (diffTermList : list (expr * expr)) (A : Matrix)
  : result (Matrix * list (expr * expr)) :=
  let diffTermList := (λ xy : expr * expr, (xy.2, xy.1)) <$> diffTermList in
  ar ← _odeToPureTransition insertion_keys first_elements
         diffOde (Some diffTermList) (Some A);
  let '(AA, remainTermList) := (ar : Matrix * list (expr * expr)) in
  fx2 ← pureTransitionToOde AA;
  Ok (AA, remainTermList).

Definition odeToPureTransition_orders (fx : list expr) (states : list string)
  : list (result (Matrix * list (expr * expr))) :=
  r ← getUnmatchedExpressionVector_orders fx;
  match r with
  | Raise e => [Raise e]
  | Ok bt =>
      match first_passes fx states bt with
      | Raise e => [Raise e]
      | Ok (A, remainTermList, diffOde) =>
          if forallb (λ x, bool_decide (x = Integer 0)) diffOde
          then [Ok (A, remainTermList)]
          else
            dtl ← getMatchingExpressionVector_orders
                    (filter (λ x, x ≠ Integer 0) diffOde);
            [refinement diffOde dtl A]
      end
  end.

(** ** The models of the scenarios *)

Definition vS : expr := Symbol "S".
Definition vI : expr := Symbol "I".
Definition beta : expr := Symbol "beta".
Definition gamma : expr := Symbol "gamma".
Definition mu : expr := Symbol "mu".
Definition alpha : expr := Symbol "alpha".
Definition bSI : expr := mul beta (mul vS vI).
Definition gI : expr := mul gamma vI.
Definition bS : expr := mul beta vS.
Definition aS : expr := mul alpha vS.

(** Scenario A, the SIR model: [S' = -beta*S*I],
    [I' = beta*S*I - gamma*I], [R' = gamma*I]. *)
Definition fx_A : list expr := [neg bSI; sub bSI gI; gI].
Definition states_A : list string := ["S"; "I"; "R"].
Definition A_A : Matrix :=
  mkMatrix 3 3 [Integer 0; bSI;       Integer 0;
                Integer 0; Integer 0; gI;
                Integer 0; Integer 0; Integer 0].

(** Scenario B, with a birth into [S] and a death out of [I]:
    [S' = mu - beta*S*I], [I' = beta*S*I - gamma*I]. *)
Definition fx_B : list expr := [sub mu bSI; sub bSI gI].
Definition states_B : list string := ["S"; "I"].
Definition A_B : Matrix :=
  mkMatrix 2 2 [Integer 0; bSI;
                Integer 0; Integer 0].

(** [S] leaves to [I] at rate [S] and to [R] at rate [beta*S]:
    [S' = -S - beta*S], [I' = S], [R' = beta*S]. *)
Definition fx_two_exits : list expr := [sub (neg vS) bS; vS; bS].
Definition A_two_exits : Matrix :=
  mkMatrix 3 3 [Integer 0; vS;        bS;
                Integer 0; Integer 0; Integer 0;
                Integer 0; Integer 0; neg vS].

(** [S] leaves to [I] and to [R], both at rate [alpha*S]:
    [S' = -2*alpha*S], [I' = alpha*S], [R' = alpha*S]. *)
Definition fx_split : list expr := [mul (Integer (-2)) aS; aS; aS].



(** ** The claims of the specification that the code does not keep *)



(** A matrix that [odeToPureTransition] returns reconstructs to the
    ODE it was made from, with the birth and death terms taken out. *)
Definition returns_checked dk se (fx : list expr) (states : list string)
  : Prop :=
  ∀ A rem, odeToPureTransition dk se fx states = Ok (A, rem) →
    ∃ bt, getUnmatchedExpressionVector dk se fx = Ok bt ∧
          pureTransitionToOde A = stripBDFromOde dk se fx (Some bt.1).

(** Every column of the incidence matrix keeps the invariant. *)
Definition incidence_ok (B : list (list Z)) : Prop :=
  Forall (λ j, incidence_column_ok (column B j))
         (seq 0 (length (default [] (head B)))).


Definition stripped_orders (fx : list expr) : list (result (list expr)) :=
  (λ r, bt ← r; stripBDFromOde insertion_keys first_elements fx
                  (Some (bt : list expr * list (expr * expr)).1))
    <$> getUnmatchedExpressionVector_orders fx.

#[global] Instance incidence_column_ok_dec col : Decision (incidence_column_ok col).
Proof. unfold incidence_column_ok. apply _. Defined.
#[global] Instance incidence_ok_dec B : Decision (incidence_ok B).
Proof. unfold incidence_ok. apply _. Defined.







(** ** Coefficients

    The coefficient of a monomial in an expression, zero for a monomial
    that the expression does not have.  An expression in normal form
    holds no zero coefficient: this is what sympy keeps, and what
    [add], [neg] and [sub] keep. *)
Definition coef (e : expr) (m : mono) : Z := default 0 (e !! m).
Definition wf_expr (e : expr) : Prop := ∀ m, e !! m ≠ Some 0.

(** The sum over [j] of [f j], for [j] below [n], in the integers. *)
Fixpoint big_sum (n : nat) (f : nat → Z) : Z :=
  match n with
  | O => 0
  | S n' => big_sum n' f + f n'
  end.

(** * Properties *)

(** ** Facts about the expressions *)

Lemma Integer_0 : Integer 0 = ∅.
Proof. reflexivity. Qed.

Lemma lookup_add (a b : expr) (m : mono) :
  add a b !! m =
    union_with (λ x y, if decide (x + y = 0) then None else Some (x + y))
               (a !! m) (b !! m).
Proof. unfold add. apply lookup_union_with. Qed.

Lemma lookup_neg (a : expr) (m : mono) : neg a !! m = Z.opp <$> a !! m.
Proof. unfold neg. apply lookup_fmap. Qed.

(** Two terms that cancel are each other's negation. *)
Lemma add_cancel (a b : expr) : add a b = Integer 0 → b = neg a.
Proof.
  rewrite Integer_0. intros H. apply map_eq. intros m.
  assert (add a b !! m = None) as Hm by (rewrite H; apply lookup_empty).
  rewrite lookup_add in Hm. rewrite lookup_neg.
  destruct (a !! m) as [x|], (b !! m) as [y|]; try done.
  unfold union_with, option_union_with in Hm.
  destruct (decide (x + y = 0)); [|done].
  cbn. f_equal. lia.
Qed.

Lemma add_neg (a : expr) : add a (neg a) = Integer 0.
Proof.
  rewrite Integer_0. apply map_eq. intros m.
  rewrite lookup_add, lookup_neg, lookup_empty.
  destruct (a !! m) as [x|]; [|done].
  unfold union_with, option_union_with. cbn.
  rewrite decide_True by lia. done.
Qed.

Lemma add_empty_r (a : expr) : add a ∅ = a.
Proof.
  apply map_eq. intros m. rewrite lookup_add, lookup_empty.
  by destruct (a !! m).
Qed.

Lemma add_empty_l (a : expr) : add ∅ a = a.
Proof.
  apply map_eq. intros m. rewrite lookup_add, lookup_empty.
  by destruct (a !! m).
Qed.

Lemma sub_0_r (a : expr) : sub a (Integer 0) = a.
Proof. unfold sub. rewrite Integer_0. unfold neg. rewrite fmap_empty. apply add_empty_r. Qed.

Lemma node_of_Integer (z : Z) : node_of (Integer z) = NInteger z.
Proof.
  unfold Integer, node_of. case_decide as Hz.
  - rewrite map_to_list_empty. by subst.
  - rewrite map_to_list_singleton. by rewrite map_to_list_empty.
Qed.

Lemma node_of_factor (sp : string * positive) :
  node_of (factor sp) =
    if decide (sp.2 = 1%positive) then NSymbol sp.1 else NPow sp.1 sp.2.
Proof.
  unfold factor, node_of. by rewrite !map_to_list_singleton.
Qed.

(** The factors of a product are not products. *)
Lemma args_Mul_not_Mul (e a : expr) :
  is_Mul e = true → a ∈ args e → is_Mul a = false.
Proof.
  unfold is_Mul, args. destruct (node_of e) as [| | |c m|] eqn:He; try done.
  intros _ Ha. apply elem_of_app in Ha as [Ha|Ha].
  - case_decide; [by apply elem_of_nil in Ha|].
    apply list_elem_of_singleton in Ha as ->. by rewrite node_of_Integer.
  - apply list_elem_of_fmap in Ha as (sp & -> & _).
    rewrite node_of_factor. by case_decide.
Qed.

(** ** The recursion of the decomposer ends *)

Lemma foldl_ext_elem {A B} (f g : B → A → B) (l : list A) (b : B) :
  (∀ b x, x ∈ l → f b x = g b x) → foldl f b l = foldl g b l.
Proof.
  revert b. induction l as [|x l IH]; intros b H; [done|]. simpl.
  rewrite H by left. apply IH. intros b' y Hy. apply H. by right.
Qed.

Lemma _expressionLength_not_Mul (e : expr) :
  is_Mul e = false → _expressionLength e = 0%nat.
Proof. unfold _expressionLength. intros ->. by destruct (is_Pow e). Qed.

Lemma Symbol_neq_Integer (s : string) (z : Z) : Symbol s ≠ Integer z.
Proof.
  unfold Symbol, Integer. case_decide as Hz.
  - intros H. apply (f_equal (λ e : expr, e !! ({[s := 1%positive]} : mono))) in H.
    by rewrite lookup_singleton_eq, lookup_empty in H.
  - intros H. apply (f_equal (λ e : expr, e !! (∅ : mono))) in H.
    rewrite lookup_singleton_eq in H.
    rewrite lookup_singleton_ne in H; [done|].
    intros Hs. apply (f_equal (λ m : mono, m !! s)) in Hs.
    by rewrite lookup_singleton_eq, lookup_empty in Hs.
Qed.

Lemma Symbol_inj (s s' : string) : Symbol s = Symbol s' → s = s'.
Proof.
  unfold Symbol. intros H.
  apply (f_equal (λ e : expr, e !! ({[s := 1%positive]} : mono))) in H.
  rewrite lookup_singleton_eq in H. symmetry in H.
  apply lookup_singleton_Some in H as [H _].
  apply (f_equal (λ m : mono, m !! s)) in H.
  rewrite lookup_singleton_eq in H.
  apply lookup_singleton_Some in H as [H _]. done.
Qed.

Lemma length_remove_dups_2 {A} `{EqDecision A} (l : list A) (x y : A) :
  x ∈ l → y ∈ l → x ≠ y → (1 < length (remove_dups l))%nat.
Proof.
  intros Hx Hy Hne.
  apply elem_of_remove_dups in Hx, Hy.
  destruct (remove_dups l) as [|a [|b k]]; simpl; [|exfalso|lia].
  - by apply elem_of_nil in Hx.
  - apply list_elem_of_singleton in Hx, Hy. congruence.
Qed.

(** A product has at least two atoms. *)
Lemma atoms_Mul (e : expr) : is_Mul e = true → (1 < length (atoms e))%nat.
Proof.
  unfold is_Mul, node_of, atoms.
  destruct (map_to_list e) as [|[m c] [|? ?]] eqn:He; try done.
  rewrite bind_cons. change (([] : list (mono * Z)) ≫= atoms_term) with ([] : list expr).
  rewrite app_nil_r. unfold atoms_term, atoms_mono. simpl.
  destruct (map_to_list m) as [|[s p] k] eqn:Hm; [done|].
  assert (m ≠ ∅) as Hne.
  { intros ->. by rewrite map_to_list_empty in Hm. }
  rewrite (decide_False (P := m = ∅)) by done. rewrite bind_cons. simpl.
  destruct k as [|[s' p'] k].
  - destruct (decide (c = 1)) as [Hc|Hc]; [by case_decide|]. intros _.
    apply (length_remove_dups_2 _ (Integer c) (Symbol s)).
    + by left.
    + right. left.
    + intros H. by apply (Symbol_neq_Integer s c).
  - intros _. rewrite bind_cons. simpl.
    apply (length_remove_dups_2 _ (Symbol s) (Symbol s')).
    + rewrite !elem_of_app, !elem_of_cons. tauto.
    + rewrite !elem_of_app, !elem_of_cons, !elem_of_app, !elem_of_cons. tauto.
    + intros H. apply Symbol_inj in H. subst s'.
      pose proof (NoDup_fst_map_to_list m) as Hnd. rewrite Hm in Hnd.
      simpl in Hnd. apply NoDup_cons in Hnd as [Hnd _]. apply Hnd. left.
Qed.

Lemma _expressionLength_pos_Mul (e : expr) :
  Nat.eqb (_expressionLength e) 0 = false → is_Mul e = true.
Proof.
  unfold _expressionLength. destruct (is_Mul e); [done|].
  by destruct (is_Pow e).
Qed.

Lemma forallb_fmap_true {A B} (f : B → bool) (g : A → B) (l : list A) :
  (∀ x, x ∈ l → f (g x) = true) → forallb f (g <$> l) = true.
Proof.
  induction l as [|x l IH]; intros H; [done|]. simpl.
  rewrite H by left. apply IH. intros y Hy. apply H. by right.
Qed.

Lemma _getLeaf_S (fuel : nat) (e : expr) (d : dict) :
  _getLeaf (S fuel) e d =
    foldl (λ d ti, if Nat.eqb (_expressionLength ti) 0 then dict_incr ti d
                   else _getLeaf fuel ti d) d (args e).
Proof. done. Qed.

Lemma _getExpression_S (fuel : nat) (e : expr) (d : dict) :
  _getExpression (S fuel) e d =
    let t := if decide (1 < length (atoms e))%nat then args e else [e] in
    if forallb (λ n, Nat.eqb n 0) (_expressionLength <$> t)
    then dict_incr e d
    else foldl (λ d ti,
                  if Nat.eqb (_expressionLength ti) 0 then dict_incr ti d
                  else if is_Mul ti then _getExpression fuel ti d
                  else if is_Pow ti then dict_incr ti d
                  else d) d t.
Proof. done. Qed.

Lemma _getLeaf_Mul (fuel : nat) (e : expr) (d : dict) :
  is_Mul e = true →
  _getLeaf (S fuel) e d = foldl (λ d ti, dict_incr ti d) d (args e).
Proof.
  intros He. rewrite _getLeaf_S. apply foldl_ext_elem. intros b x Hx.
  by rewrite (_expressionLength_not_Mul x) by (by eapply args_Mul_not_Mul).
Qed.

(** Two calls deep are enough for [_getLeaf]. *)
Lemma _getLeaf_fuel (n : nat) (e : expr) (d : dict) :
  _getLeaf (2 + n) e d = _getLeaf 2 e d.
Proof.
  change (2 + n)%nat with (S (S n)).
  rewrite (_getLeaf_S (S n)), (_getLeaf_S 1).
  apply foldl_ext_elem. intros b x Hx.
  destruct (Nat.eqb (_expressionLength x) 0) eqn:Hl; [done|].
  apply _expressionLength_pos_Mul in Hl.
  by rewrite (_getLeaf_Mul n), (_getLeaf_Mul 0).
Qed.

Lemma _getExpression_Mul (fuel : nat) (e : expr) (d : dict) :
  is_Mul e = true → _getExpression (S fuel) e d = dict_incr e d.
Proof.
  intros He. rewrite _getExpression_S. cbv zeta.
  rewrite decide_True by (by apply atoms_Mul).
  assert (forallb (λ n, Nat.eqb n 0) (_expressionLength <$> args e) = true) as ->; [|done].
  apply forallb_fmap_true. intros x Hx.
  rewrite (_expressionLength_not_Mul x) by (by eapply args_Mul_not_Mul). done.
Qed.

(** Two calls deep are enough for [_getExpression]. *)
Lemma _getExpression_fuel (n : nat) (e : expr) (d : dict) :
  _getExpression (2 + n) e d = _getExpression 2 e d.
Proof.
  change (2 + n)%nat with (S (S n)).
  rewrite (_getExpression_S (S n)), (_getExpression_S 1). cbv zeta.
  destruct (forallb _ _); [done|].
  apply foldl_ext_elem. intros b x Hx.
  destruct (Nat.eqb (_expressionLength x) 0) eqn:Hl; [done|].
  apply _expressionLength_pos_Mul in Hl. rewrite Hl.
  by rewrite (_getExpression_Mul n), (_getExpression_Mul 0).
Qed.

(** ** Matched tuples *)

Lemma elem_of_range (a b i : nat) : i ∈ range a b ↔ (a ≤ i < b)%nat.
Proof. unfold range. rewrite elem_of_seq. lia. Qed.

(** The tuples come from the cancelling pairs of the list, at
    positions [i < j], in one of the two orders. *)
Lemma elem_of_matched_tuple dk (l : list expr) (p q : expr) :
  (p, q) ∈ _transitionListToMatchedTuple dk l ↔
  ∃ i j a b, (i < j)%nat ∧ l !! i = Some a ∧ l !! j = Some b ∧
    add a b = Integer 0 ∧
    (((Integer (-1) ∈ getLeafs dk a) ∧ p = b ∧ q = a) ∨
     ((Integer (-1) ∉ getLeafs dk a) ∧ p = a ∧ q = b)).
Proof.
  unfold _transitionListToMatchedTuple. rewrite list_elem_of_bind. split.
  - intros (i & Hin & Hi). apply list_elem_of_bind in Hin as (j & Hin & Hj).
    apply elem_of_range in Hi, Hj.
    assert (i < length l)%nat as Hil by lia.
    assert (j < length l)%nat as Hjl by lia.
    apply lookup_lt_is_Some in Hil as [a Ha]. apply lookup_lt_is_Some in Hjl as [b Hb].
    rewrite (list_lookup_total_correct _ _ _ Ha), (list_lookup_total_correct _ _ _ Hb) in Hin.
    exists i, j, a, b. split; [lia|]. split; [done|]. split; [done|].
    destruct (decide (add a b = Integer 0)) as [Hab|]; [|by apply elem_of_nil in Hin].
    split; [done|].
    destruct (decide (Integer (-1) ∈ getLeafs dk a)) as [Hm|Hm];
      apply list_elem_of_singleton in Hin; simplify_eq; [left|right]; done.
  - intros (i & j & a & b & Hij & Ha & Hb & Hab & Hcase).
    exists i. split.
    + apply list_elem_of_bind. exists j. split.
      * rewrite (list_lookup_total_correct _ _ _ Ha), (list_lookup_total_correct _ _ _ Hb).
        rewrite decide_True by done.
        destruct Hcase as [(Hm & -> & ->)|(Hm & -> & ->)].
        -- rewrite decide_True by done. by left.
        -- rewrite decide_False by done. by left.
      * apply elem_of_range. apply lookup_lt_Some in Hb. lia.
    + apply elem_of_range. apply lookup_lt_Some in Hb. lia.
Qed.

Lemma neg_involutive (a : expr) : neg (neg a) = a.
Proof.
  apply map_eq. intros m. rewrite !lookup_neg.
  destruct (a !! m) as [x|]; [|done]. cbn. f_equal. lia.
Qed.

Lemma add_comm (a b : expr) : add a b = add b a.
Proof.
  apply map_eq. intros m. rewrite !lookup_add.
  destruct (a !! m) as [x|], (b !! m) as [y|]; try done.
  unfold union_with, option_union_with. by rewrite (Z.add_comm x y).
Qed.

(** C8.  In a tuple built by [_transitionListToMatchedTuple] from two
    cancelling terms of which exactly one has the literal [-1] among
    its leaf factors, the first component is the term without the [-1]
    and the second component is its negation. *)
Theorem matched_tuple_positive_first dk (l : list expr) (p q : expr) :
  (p, q) ∈ _transitionListToMatchedTuple dk l →
  (has_literal_minus_one dk p ↔ ¬ has_literal_minus_one dk q) →
  ¬ has_literal_minus_one dk p ∧ has_literal_minus_one dk q ∧
  q = neg p ∧ add p q = Integer 0 ∧ p ∈ l ∧ q ∈ l.
Proof.
  unfold has_literal_minus_one. intros Hin Hone.
  apply elem_of_matched_tuple in Hin
    as (i & j & a & b & Hij & Ha & Hb & Hab & Hcase).
  pose proof (add_cancel _ _ Hab) as Hneg.
  apply list_elem_of_lookup_2 in Ha, Hb.
  destruct Hcase as [(Hm & Hp & Hq)|(Hm & Hp & Hq)]; subst p q.
  - assert (Integer (-1) ∉ getLeafs dk b) as Hb' by tauto.
    repeat split; try done.
    + by rewrite Hneg, neg_involutive.
    + by rewrite add_comm.
  - assert (Integer (-1) ∈ getLeafs dk b) as Hq.
    { destruct (decide (Integer (-1) ∈ getLeafs dk b)); [done|tauto]. }
    done.
Qed.

(** ** Reconstruction of the ODE *)

Lemma sum_snoc (l : list expr) (x : expr) : sum (l ++ [x]) = add (sum l) x.
Proof. unfold sum. by rewrite foldl_app. Qed.

Lemma index_lt (r c i j : nat) : (i < r → j < c → i * c + j < r * c)%nat.
Proof. nia. Qed.

Lemma sum_col_slice (A : Matrix) (i k : nat) :
  wf_Matrix A → (i < cols A)%nat → (k ≤ rows A)%nat →
  sum (omap (λ j, _mat A !! (j * cols A + i)%nat) (seq 0 k))
  = big_add k (λ j, entry A j i).
Proof.
  intros Hwf Hi. induction k as [|k IH]; intros Hk; [done|].
  destruct (lookup_lt_is_Some_2 (_mat A) (k * cols A + i)%nat) as [x Hx].
  { rewrite Hwf. apply index_lt; lia. }
  rewrite seq_S, omap_app.
  assert (omap (λ j, _mat A !! (j * cols A + i)%nat) [(0 + k)%nat] = [x]) as ->.
  { cbn. by rewrite Hx. }
  rewrite sum_snoc, IH by lia. simpl. f_equal.
  unfold entry. by rewrite (list_lookup_total_correct _ _ _ Hx).
Qed.

Lemma sum_row_slice (A : Matrix) (i k : nat) :
  wf_Matrix A → (i < rows A)%nat → (k ≤ cols A)%nat →
  sum (take k (drop (i * cols A) (_mat A))) = big_add k (λ j, entry A i j).
Proof.
  intros Hwf Hi. induction k as [|k IH]; intros Hk; [done|].
  destruct (lookup_lt_is_Some_2 (_mat A) (i * cols A + k)%nat) as [x Hx].
  { rewrite Hwf. apply index_lt; lia. }
  rewrite (take_S_r _ _ x) by (by rewrite lookup_drop).
  rewrite sum_snoc, IH by lia. simpl. f_equal.
  unfold entry. by rewrite (list_lookup_total_correct _ _ _ Hx).
Qed.

(** C9.  For a square matrix, [pureTransitionToOde] returns the vector
    whose [i]-th entry is the sum of column [i] minus the sum of row
    [i], simplified; for a matrix that is not square the assertion on
    the shape fails and no vector is returned. *)
Theorem pureTransitionToOde_inbound_minus_outbound (A : Matrix) :
  wf_Matrix A →
  (rows A = cols A →
     ∃ v, pureTransitionToOde A = Ok v ∧ length v = rows A ∧
          ∀ i, (i < rows A)%nat →
               v !! i = Some (simplify (inbound_minus_outbound A i))) ∧
  (rows A ≠ cols A → pureTransitionToOde A = Raise AssertionError).
Proof.
  intros Hwf. unfold pureTransitionToOde. split; intros Hsq.
  - rewrite decide_True by done. eexists. split; [done|]. split.
    + rewrite !length_fmap. unfold range. rewrite length_seq. lia.
    + intros i Hi. rewrite !list_lookup_fmap. unfold range.
      rewrite lookup_seq_lt by lia. simpl. do 2 f_equal.
      unfold inbound_minus_outbound, col_slice, row_slice.
      rewrite sum_col_slice, sum_row_slice by (done || lia). done.
  - by rewrite decide_False.
Qed.

(** ** [stripBDFromOde] does not write to its input *)

Section store_loops.
Context (σ : Store.store) (c : nat).

Lemma write_insert (w : list expr) (i : nat) (x : expr) :
  Store.write (<[c := w]> σ) c i x = <[c := <[i := x]> w]> σ.
Proof.
  unfold Store.write. by rewrite lookup_total_insert_eq, insert_insert_eq.
Qed.

Lemma insert_lookup_total_id (w : list expr) (i : nat) :
  <[i := w !!! i]> w = w.
Proof.
  destruct (decide (i < length w)%nat) as [Hi|Hi].
  - apply list_insert_id. by apply list_lookup_lookup_total_lt.
  - apply list_insert_ge. lia.
Qed.

Lemma inner_loop (g : nat * expr → expr) (L : list (nat * expr))
    (w : list expr) (i : nat) :
  (i < length w)%nat →
  foldl (λ (σ : Store.store) (jt : nat * expr),
           Store.write σ c i (sub ((σ !!! c) !!! i) (g jt)))
        (<[c := w]> σ) L
  = <[c := <[i := foldl (λ x jt, sub x (g jt)) (w !!! i) L]> w]> σ.
Proof.
  revert w. induction L as [|jt L IH]; intros w Hi; simpl.
  - by rewrite insert_lookup_total_id.
  - rewrite lookup_total_insert_eq, write_insert, IH
      by (by rewrite length_insert).
    by rewrite list_insert_insert_eq, list_lookup_total_insert_eq.
Qed.

Context (fx : nat) (v : list expr) (bdList : list expr).
Hypothesis Hfx : σ !! fx = Some v.
Hypothesis Hc : σ !! c = None.

Lemma outer_loop (k : nat) :
  (k ≤ length v)%nat →
  foldl (λ (σ : Store.store) (i : nat),
           foldl (λ (σ0 : Store.store) (jt : nat * expr),
                    Store.write σ0 c i
                      (sub ((σ0 !!! c) !!! i)
                           (if ((((λ x : expr,
                                     bool_decide
                                       (x ∈ args (expand ((σ !!! fx) !!! i))))
                                    <$> bdList) : list bool) !!! jt.1 : bool)
                            then jt.2 else Integer 0)))
                 σ (enumerate bdList))
        (<[c := v]> σ) (seq 0 k)
  = <[c := ((λ fxi, stripped_entry bdList fxi fxi) <$> take k v) ++ drop k v]> σ.
Proof.
  assert (fx ≠ c) as Hne by (intros ->; congruence).
  induction k as [|k IH]; intros Hk.
  - by rewrite drop_0.
  - rewrite seq_S, foldl_app, IH by lia. cbn [foldl].
    destruct (lookup_lt_is_Some_2 v k) as [x Hx]; [lia|].
    rewrite lookup_total_insert_ne by done.
    rewrite (lookup_total_correct _ _ _ Hfx).
    rewrite (list_lookup_total_correct _ _ _ Hx).
    rewrite inner_loop.
    2:{ rewrite length_app, length_fmap, length_take, length_drop. lia. }
    f_equal.
    rewrite (take_S_r _ _ _ Hx), fmap_app, <- (assoc_L (++)).
    rewrite (drop_S _ _ _ Hx).
    assert (length ((λ fxi, stripped_entry bdList fxi fxi) <$> take k v) = k) as Hlen.
    { rewrite length_fmap, length_take. lia. }
    rewrite insert_app_r_alt by lia. rewrite Hlen, Nat.sub_diag. cbn [fmap list_fmap].
    rewrite lookup_total_app_r by lia. rewrite Hlen, Nat.sub_diag. done.
Qed.
End store_loops.

Lemma alloc_fresh (σ : Store.store) (v : list expr) :
  σ !! (Store.alloc σ v).2 = None ∧
  (Store.alloc σ v).1 = <[(Store.alloc σ v).2 := v]> σ.
Proof.
  unfold Store.alloc. simpl. split; [|done].
  apply not_elem_of_dom. apply is_fresh.
Qed.

(** C10.  [stripBDFromOde] leaves every matrix of the store as it was,
    the input [fx] among them: the terms are subtracted in the copy,
    and the result is a matrix at a new address, holding the vector
    that the function returns. *)
Theorem stripBDFromOde_input_unchanged dk se
    (σ : Store.store) (fx : nat) (bdList : option (list expr)) :
  let σ' := (Store.stripBDFromOde dk se σ fx bdList).1 in
  let r := (Store.stripBDFromOde dk se σ fx bdList).2 in
  σ ⊆ σ' ∧ σ' !! fx = σ !! fx ∧
  match σ !! fx with
  | None => r = Raise TypeError
  | Some v =>
      match stripBDFromOde dk se v bdList with
      | Raise e => r = Raise e ∧ σ' = σ
      | Ok w => ∃ a, r = Ok a ∧ a ≠ fx ∧ σ !! a = None ∧ σ' !! a = Some w
      end
  end.
Proof.
  cbv zeta. unfold Store.stripBDFromOde, stripBDFromOde.
  destruct (σ !! fx) as [v|] eqn:Hfx; [|done].
  destruct (match bdList with
            | None => fst <$> getUnmatchedExpressionVector dk se v
            | Some l => Ok l
            end) as [bd|e]; [|done].
  cbn [mbind result_bind].
  destruct (alloc_fresh σ v) as [Hc Hσc].
  destruct (Store.alloc σ v) as [σc c]. simpl in Hc, Hσc. subst σc.
  unfold range. rewrite Nat.sub_0_r. cbv beta iota zeta.
  rewrite (outer_loop σ c fx v bd Hfx Hc (length v)) by done.
  rewrite firstn_all, drop_all, app_nil_r.
  rewrite (lookup_total_insert_eq σ).
  set (w := (λ fxi, stripped_entry bd fxi fxi) <$> v).
  set (σ1 := <[c := w]> σ).
  destruct (alloc_fresh σ1 (simplify <$> w)) as [H1 Hσ1].
  destruct (Store.alloc σ1 (simplify <$> w)) as [σ2 a1]. simpl in H1, Hσ1.
  subst σ2. rewrite lookup_total_insert_eq.
  set (σ2 := <[a1 := simplify <$> w]> σ1).
  destruct (alloc_fresh σ2 (simplify <$> w)) as [H2 Hσ2].
  destruct (Store.alloc σ2 (simplify <$> w)) as [σ3 a2]. simpl in H2, Hσ2.
  subst σ3. rewrite lookup_total_insert_eq.
  set (σ3 := <[a2 := simplify <$> w]> σ2).
  destruct (alloc_fresh σ3 (expand <$> (simplify <$> w))) as [H3 Hσ3].
  destruct (Store.alloc σ3 (expand <$> (simplify <$> w))) as [σ4 a3].
  simpl in H3, Hσ3. subst σ4. simpl.
  assert (σ ⊆ σ1) as S1 by (by apply insert_subseteq).
  assert (σ1 ⊆ σ2) as S2 by (by apply insert_subseteq).
  assert (σ2 ⊆ σ3) as S3 by (by apply insert_subseteq).
  assert (σ3 ⊆ <[a3 := expand <$> (simplify <$> w)]> σ3) as S4
    by (by apply insert_subseteq).
  assert (σ ⊆ σ3) as S
    by (etrans; [exact S1|]; etrans; [exact S2|exact S3]).
  assert (a3 ≠ fx) as Hne.
  { intros ->. eapply lookup_weaken in Hfx; [|exact S]. congruence. }
  split; [by etrans|]. split.
  - by rewrite lookup_insert_ne, (lookup_weaken _ _ _ _ Hfx S).
  - exists a3. split; [done|]. split; [done|]. split.
    + destruct (σ !! a3) as [u|] eqn:Hu; [|done].
      eapply lookup_weaken in Hu; [|exact S]. congruence.
    + by rewrite lookup_insert_eq.
Qed.

(** ** The incidence matrix *)




Section one_source_one_target.
Context (i1 i2 : nat) (Hne : i1 ≠ i2).





End one_source_one_target.



(** ** Loops over the matrix, and pass 1 *)

Lemma for_each_app {A S} (body : S → A → result S) (s : S) (l1 l2 : list A) :
  for_each body s (l1 ++ l2) = s' ← for_each body s l1; for_each body s' l2.
Proof.
  revert s. induction l1 as [|a l1 IH]; intros s; [done|]. simpl.
  destruct (body s a) as [s1|e]; [|done]. apply IH.
Qed.

(** A loop whose body keeps an invariant and does not raise under it
    does not raise, and ends in a state with the invariant. *)
Lemma for_each_inv {A S} (P : S → Prop) (body : S → A → result S)
    (l : list A) (s : S) :
  P s →
  (∀ s a, a ∈ l → P s → ∃ s', body s a = Ok s' ∧ P s') →
  ∃ s', for_each body s l = Ok s' ∧ P s'.
Proof.
  revert s. induction l as [|a l IH]; intros s Hs Hbody; [by exists s|].
  simpl. destruct (Hbody s a) as (s1 & -> & Hs1); [by left|done|].
  apply IH; [done|]. intros s2 b Hb. apply Hbody. by right.
Qed.

Lemma enumerate_snoc {A} (l : list A) (x : A) :
  enumerate (l ++ [x]) = enumerate l ++ [(length l, x)].
Proof.
  unfold enumerate. rewrite length_app. simpl.
  rewrite Nat.add_1_r, seq_S. rewrite zip_with_app by (by rewrite length_seq).
  done.
Qed.

Lemma elem_of_enumerate {A} (l : list A) (i : nat) (x : A) :
  (i, x) ∈ enumerate l ↔ l !! i = Some x.
Proof.
  unfold enumerate. rewrite list_elem_of_lookup. split.
  - intros (k & Hk). apply lookup_zip_with_Some in Hk as (a & b & Heq & Ha & Hb).
    apply lookup_seq in Ha as [-> _]. by simplify_eq.
  - intros Hi. exists i.
    rewrite lookup_zip_with, lookup_seq_lt by (by eapply lookup_lt_Some).
    by rewrite Hi.
Qed.

Lemma index_inj (c i j i' j' : nat) :
  (j < c)%nat → (j' < c)%nat →
  (i * c + j = i' * c + j')%nat → i = i' ∧ j = j'.
Proof.
  intros Hj Hj' Heq.
  assert (i = ((i * c + j) / c)%nat) as Hi
    by (apply (Nat.div_unique _ _ _ j); lia).
  assert (i' = ((i' * c + j') / c)%nat) as Hi'
    by (apply (Nat.div_unique _ _ _ j'); lia).
  rewrite Heq in Hi. rewrite <- Hi' in Hi. subst i'. split; [done|lia].
Qed.

Lemma shaped_like_refl (A : Matrix) : wf_Matrix A → shaped_like A A.
Proof. by intros. Qed.

Lemma zeros_wf (r c : nat) : wf_Matrix (zeros r c).
Proof. unfold wf_Matrix, zeros. simpl. by rewrite length_replicate. Qed.

(** [A[i,j] += t] inside the matrix: it does not raise, and changes
    the entry [(i, j)] only. *)
Lemma iadd_spec (A : Matrix) (i j : nat) (t : expr) :
  wf_Matrix A → (i < rows A)%nat → (j < cols A)%nat →
  ∃ A', iadd A i j t = Ok A' ∧ shaped_like A A' ∧
        ∀ i' j', (j' < cols A)%nat →
          entry A' i' j'
          = if bool_decide (i' = i ∧ j' = j) then add (entry A i j) t
            else entry A i' j'.
Proof.
  intros Hwf Hi Hj. unfold iadd, getitem, setitem.
  rewrite !decide_True by done.
  destruct (lookup_lt_is_Some_2 (_mat A) (i * cols A + j)%nat) as [x Hx].
  { rewrite Hwf. nia. }
  rewrite Hx. cbn [mbind result_bind]. rewrite decide_True by done.
  eexists. split; [done|]. split.
  - unfold shaped_like, wf_Matrix. simpl. by rewrite length_insert.
  - intros i' j' Hj'. unfold entry. simpl.
    rewrite (list_lookup_total_correct _ _ _ Hx).
    case_bool_decide as Hc.
    + destruct Hc as [-> ->].
      apply list_lookup_total_insert_eq. by eapply lookup_lt_Some.
    + apply list_lookup_total_insert_ne. intros Heq.
      apply index_inj in Heq as [-> ->]; [|done..]. by apply Hc.
Qed.

Lemma shaped_like_trans (A B C : Matrix) :
  shaped_like A B → shaped_like B C → shaped_like A C.
Proof. unfold shaped_like. intros (?&?&?) (?&?&?). split_and!; congruence. Qed.

(** The inner loop of pass 1, started at column [k] on the equations
    [l]: it does not raise and adds [t] to the entries [(o, j)] where
    equation [j] is not the origin's and has [t]. *)
Lemma origin_loop (t : expr) (o : nat) (l : list expr) (k : nat) (A : Matrix) :
  wf_Matrix A → (o < rows A)%nat → (k + length l ≤ cols A)%nat →
  ∃ A',
    for_each (λ (A : Matrix) (jf : nat * expr),
                let '(j, fxj) := jf in
                if bool_decide (o ≠ j) && _hasExpression fxj t
                then iadd A o j t
                else Ok A)
             A (zip (seq k (length l)) l) = Ok A' ∧
    shaped_like A A' ∧
    ∀ i j, (j < cols A)%nat →
      entry A' i j
      = if bool_decide (i = o) && bool_decide (k ≤ j)%nat && bool_decide (o ≠ j)
           && from_option (λ fxj, _hasExpression fxj t) false (l !! (j - k)%nat)
        then add (entry A i j) t
        else entry A i j.
Proof.
  revert k A. induction l as [|a l IH]; intros k A Hwf Ho Hk.
  - exists A. split; [done|]. split; [by apply shaped_like_refl|].
    intros i j _. rewrite lookup_nil. simpl. by rewrite andb_false_r.
  - cbn [length seq zip zip_with for_each]. simpl in Hk.
    destruct (bool_decide (o ≠ k) && _hasExpression a t) eqn:Hc.
    + destruct (iadd_spec A o k t) as (A1 & -> & (Hr & Hcs & Hwf1) & He1);
        [done|done|lia|].
      cbn [mbind result_bind].
      destruct (IH (S k) A1) as (A' & -> & Hsh & He'); [done|lia|lia|].
      exists A'. split; [done|]. split.
      { eapply shaped_like_trans; [|exact Hsh]. done. }
      intros i j Hj. rewrite He' by lia. rewrite He1 by done.
      apply andb_true_iff in Hc as [Hc1 Hc2]. apply bool_decide_eq_true in Hc1.
      destruct (decide (j = k)) as [->|Hjk].
      * rewrite Nat.sub_diag. cbn [lookup list_lookup from_option].
        rewrite (bool_decide_eq_false_2 (S k ≤ k)%nat) by lia.
        rewrite andb_false_r. cbn [andb].
        rewrite (bool_decide_eq_true_2 (k ≤ k)%nat) by lia. rewrite Hc2.
        rewrite (bool_decide_eq_true_2 (o ≠ k)) by done.
        destruct (bool_decide (i = o)) eqn:Hio; cbn [andb].
        -- apply bool_decide_eq_true in Hio as ->.
           by rewrite bool_decide_eq_true_2.
        -- apply bool_decide_eq_false in Hio.
           rewrite bool_decide_eq_false_2; [done|]. intros [? _]. done.
      * rewrite (bool_decide_eq_false_2 (i = o ∧ j = k)) by (intros [_ ?]; done).
        destruct (decide (k < j)%nat) as [Hlt|Hge].
        -- replace (j - k)%nat with (S (j - S k)) by lia.
           cbn [lookup list_lookup].
           rewrite (bool_decide_eq_true_2 (S k ≤ j)%nat) by lia.
           rewrite (bool_decide_eq_true_2 (k ≤ j)%nat) by lia. done.
        -- rewrite (bool_decide_eq_false_2 (S k ≤ j)%nat) by lia.
           rewrite (bool_decide_eq_false_2 (k ≤ j)%nat) by lia.
           by rewrite !andb_false_r.
    + cbn [mbind result_bind].
      destruct (IH (S k) A) as (A' & -> & Hsh & He'); [done|done|lia|].
      exists A'. split; [done|]. split; [done|].
      intros i j Hj. rewrite He' by lia.
      destruct (decide (j = k)) as [->|Hjk].
      * rewrite Nat.sub_diag. cbn [lookup list_lookup from_option].
        rewrite (bool_decide_eq_false_2 (S k ≤ k)%nat) by lia.
        rewrite andb_false_r. cbn [andb].
        destruct (bool_decide (i = o)), (bool_decide (k ≤ k)%nat);
          cbn [andb]; try done.
        by rewrite Hc.
      * destruct (decide (k < j)%nat) as [Hlt|Hge].
        -- replace (j - k)%nat with (S (j - S k)) by lia.
           cbn [lookup list_lookup].
           rewrite (bool_decide_eq_true_2 (S k ≤ j)%nat) by lia.
           rewrite (bool_decide_eq_true_2 (k ≤ j)%nat) by lia. done.
        -- rewrite (bool_decide_eq_false_2 (S k ≤ j)%nat) by lia.
           rewrite (bool_decide_eq_false_2 (k ≤ j)%nat) by lia.
           by rewrite !andb_false_r.
Qed.

(** A symbol is an atom of an expression when it occurs in one of its
    monomials. *)
Lemma Symbol_in_atoms (s : string) (e : expr) :
  Symbol s ∈ atoms e ↔ ∃ m c p, e !! m = Some c ∧ m !! s = Some p.
Proof.
  unfold atoms. destruct (map_to_list e) as [|t ts] eqn:He.
  - apply map_to_list_empty_iff in He as ->. split.
    + intros H. apply list_elem_of_singleton in H.
      by apply Symbol_neq_Integer in H.
    + intros (m & c & p & H & _). by rewrite lookup_empty in H.
  - rewrite <- He. rewrite elem_of_remove_dups, list_elem_of_bind. split.
    + intros ([m c] & Hin & Hmc). apply elem_of_map_to_list in Hmc.
      exists m, c. unfold atoms_term in Hin. simpl in Hin.
      case_decide as Hm.
      { apply list_elem_of_singleton in Hin. by apply Symbol_neq_Integer in Hin. }
      apply elem_of_app in Hin as [Hin|Hin].
      { case_decide; [by apply elem_of_nil in Hin|].
        apply list_elem_of_singleton in Hin. by apply Symbol_neq_Integer in Hin. }
      unfold atoms_mono in Hin. apply list_elem_of_bind in Hin as ([s' p] & Hin & Hsp).
      apply elem_of_map_to_list in Hsp. simpl in Hin.
      apply elem_of_cons in Hin as [Hin|Hin].
      * apply Symbol_inj in Hin as ->. by exists p.
      * case_decide; [by apply elem_of_nil in Hin|].
        apply list_elem_of_singleton in Hin. by apply Symbol_neq_Integer in Hin.
    + intros (m & c & p & Hc & Hp). exists (m, c). split.
      * unfold atoms_term. simpl. rewrite decide_False.
        2:{ intros ->. by rewrite lookup_empty in Hp. }
        apply elem_of_app. right. unfold atoms_mono.
        apply list_elem_of_bind. exists (s, p). split; [by left|].
        by apply elem_of_map_to_list.
      * by apply elem_of_map_to_list.
Qed.

(** A term and its negation have the same symbols. *)
Lemma Symbol_in_atoms_neg (s : string) (e : expr) :
  Symbol s ∈ atoms (neg e) ↔ Symbol s ∈ atoms e.
Proof.
  rewrite !Symbol_in_atoms. split.
  - intros (m & c & p & Hc & Hp). rewrite lookup_neg in Hc.
    destruct (e !! m) as [c'|] eqn:He; [|done]. by exists m, c', p.
  - intros (m & c & p & Hc & Hp). exists m, (- c), p.
    by rewrite lookup_neg, Hc.
Qed.

Lemma omap_ext_elem {A B} (f g : A → option B) (l : list A) :
  (∀ x, x ∈ l → f x = g x) → omap f l = omap g l.
Proof.
  induction l as [|x l IH]; intros H; [done|]. cbn.
  rewrite (H x) by left. rewrite IH; [done|].
  intros y Hy. apply H. by right.
Qed.

(** The candidate origins are the same whether they are looked for in
    the positive or in the negative term of a matched pair. *)
Lemma possibleOrigin_of_matched (states : list string) (t1 t2 : expr) :
  add t1 t2 = Integer 0 →
  possibleOrigin_of states t1 = possibleOrigin_of states t2.
Proof.
  intros Hm. apply add_cancel in Hm as ->. unfold possibleOrigin_of.
  apply omap_ext_elem. intros [i s] _. simpl.
  destruct (decide (Symbol s ∈ atoms t1)) as [H|H].
  - rewrite decide_True; [done|]. by apply Symbol_in_atoms_neg.
  - rewrite decide_False; [done|]. by rewrite Symbol_in_atoms_neg.
Qed.

Lemma possibleOrigin_of_lt (states : list string) (t : expr) (o : nat) :
  o ∈ possibleOrigin_of states t → (o < length states)%nat.
Proof.
  unfold possibleOrigin_of. intros H.
  apply list_elem_of_omap in H as ([i s] & Hin & Hs). simpl in Hs.
  case_decide; [|done]. simplify_eq.
  apply elem_of_enumerate in Hin. by eapply lookup_lt_Some.
Qed.

(** An equation that lists a term among its expanded additive
    arguments, or is that term, has it for [_hasExpression]. *)
Lemma _hasExpression_additive (eq t : expr) :
  t ∈ additive_args eq ∨ t = expand eq → _hasExpression eq t = true.
Proof.
  unfold _hasExpression, additive_args, expand. intros [Hin| ->].
  - unfold args, node_of.
    destruct (map_to_list eq) as [|[m c] [|t2 ts]] eqn:He.
    + by apply elem_of_nil in Hin.
    + apply list_elem_of_singleton in Hin. simpl in Hin.
      assert (eq = {[m := c]}) as Heq.
      { rewrite <- (list_to_map_to_list eq), He. simpl.
        by rewrite insert_empty. }
      rewrite (decide_True (P := t = eq)) by congruence. by case_decide.
    + rewrite (decide_True (P := t ∈ _)) by done. done.
  - rewrite (decide_True (P := eq = eq)) by done. by case_decide.
Qed.

(** C5.  Pass 1 on one more matched pair [(t1, t2)], after the pairs
    [tl] have left the matrix [A] and the remainder [rem].  The
    candidate origins are the states whose symbol is an atom of the
    negative term [t2].  With exactly one candidate [o], [t1] is added
    to [A[o,j]] for every equation [j] other than [o] that lists [t1]
    among its expanded additive arguments or is [t1], and the remainder
    stays as it is; otherwise the pair joins the remainder and the
    matrix stays as it is. *)
Theorem single_origin_pass (fx : list expr) (states : list string)
    (tl : list (expr * expr)) (A0 : option Matrix) (A : Matrix)
    (rem : list (expr * expr)) (t1 t2 : expr) :
  _singleOriginTransition fx tl states A0 = Ok (A, rem) →
  wf_Matrix A → rows A = length fx → cols A = length fx →
  length states = length fx →
  add t1 t2 = Integer 0 →
  match possibleOrigin_of states t2 with
  | [o] =>
      ∃ A', _singleOriginTransition fx (tl ++ [(t1, t2)]) states A0
              = Ok (A', rem) ∧
            shaped_like A A' ∧
            entry A' o o = entry A o o ∧
            ∀ j fxj, fx !! j = Some fxj → j ≠ o →
                     t1 ∈ additive_args fxj ∨ t1 = expand fxj →
                     entry A' o j = add (entry A o j) t1
  | _ =>
      _singleOriginTransition fx (tl ++ [(t1, t2)]) states A0
      = Ok (A, rem ++ [(t1, t2)])
  end.
Proof.
  intros Hrun Hwf Hr Hc Hst Hm.
  pose proof (possibleOrigin_of_matched states t1 t2 Hm) as Ho.
  unfold _singleOriginTransition in *.
  rewrite enumerate_snoc, for_each_app, Hrun.
  cbn [mbind result_bind for_each]. rewrite Ho.
  destruct (possibleOrigin_of states t2) as [|o [|o' os]] eqn:Hos.
  - by rewrite decide_False.
  - rewrite decide_True by done.
    change ([o] !!! 0%nat) with o.
    assert (o < rows A)%nat as Hlt.
    { rewrite Hr, <- Hst. apply (possibleOrigin_of_lt states t2).
      rewrite Hos. by left. }
    destruct (origin_loop t1 o fx 0 A) as (A' & HA' & Hsh & He);
      [done|done|lia|].
    unfold enumerate. rewrite HA'. cbn [mbind result_bind].
    exists A'. split; [done|]. split; [done|]. split.
    + rewrite He by lia.
      rewrite (bool_decide_eq_false_2 (o ≠ o)) by (intros ?; done).
      by rewrite andb_false_r.
    + intros j fxj Hj Hne Hadd. rewrite He.
      2:{ rewrite Hc. by eapply lookup_lt_Some. }
      rewrite Nat.sub_0_r, Hj. cbn [from_option].
      rewrite (_hasExpression_additive _ _ Hadd).
      rewrite !bool_decide_eq_true_2; [done|done|lia|done].
  - rewrite decide_False by (simpl; lia). done.
Qed.

(** ** Every order of iteration *)

Lemma elem_of_choices {A} (xs : list A) (ls : list (list A)) :
  Forall2 (λ x l, x ∈ l) xs ls → xs ∈ choices ls.
Proof.
  induction 1 as [|x l xs ls Hx _ IH]; [by left|].
  cbn [choices]. apply list_elem_of_bind. exists x. split; [|done].
  apply list_elem_of_bind. exists xs. split; [by left|done].
Qed.

Lemma list_bind_ext_elem {A B} (f g : A → list B) (l : list A) :
  (∀ x, x ∈ l → f x = g x) → l ≫= f = l ≫= g.
Proof.
  induction l as [|x l IH]; intros H; [done|].
  rewrite !bind_cons, (H x) by left. f_equal. apply IH.
  intros y Hy. apply H. by right.
Qed.

Section orders.
Context (dk : dict → list expr) (se : list expr → list expr).
Hypothesis Hk : KeysOrder dk.
Hypothesis He : ElementsOrder se.

Lemma getExpressions_in_orders (e : expr) :
  getExpressions dk e ∈ getExpressions_orders e.
Proof.
  unfold getExpressions, getExpressions_orders.
  apply permutations_Permutation. symmetry. apply Hk.
Qed.

Lemma getExpressions_choices (fx : list expr) :
  (getExpressions dk <$> fx) ∈ choices (getExpressions_orders <$> fx).
Proof.
  apply elem_of_choices. apply Forall2_fmap, Forall2_same_length_lookup.
  split; [done|]. intros i x y Hx Hy. simplify_eq.
  apply getExpressions_in_orders.
Qed.

(** The order of the leafs does not matter to the tuples. *)
Lemma _transitionListToMatchedTuple_order (l : list expr) :
  _transitionListToMatchedTuple dk l
  = _transitionListToMatchedTuple insertion_keys l.
Proof.
  unfold _transitionListToMatchedTuple.
  apply list_bind_ext_elem. intros i _.
  apply list_bind_ext_elem. intros j _. cbv zeta.
  case_decide; [|done].
  assert (Integer (-1) ∈ getLeafs dk (l !!! i)
          ↔ Integer (-1) ∈ getLeafs insertion_keys (l !!! i)) as Hiff.
  { unfold getLeafs, insertion_keys. by rewrite (Hk _). }
  destruct (decide (Integer (-1) ∈ getLeafs dk (l !!! i)));
    destruct (decide (Integer (-1) ∈ getLeafs insertion_keys (l !!! i)));
    tauto.
Qed.

Lemma getUnmatchedExpressionVector_in_orders (fx : list expr) :
  getUnmatchedExpressionVector dk se fx
  ∈ getUnmatchedExpressionVector_orders fx.
Proof.
  unfold getUnmatchedExpressionVector, getUnmatchedExpressionVector_orders.
  apply list_elem_of_bind. exists (getExpressions dk <$> fx).
  split; [|apply getExpressions_choices].
  destruct (reduce_concat (getExpressions dk <$> fx)) as [tl|e];
    cbn [mbind result_bind]; [|by left].
  rewrite _transitionListToMatchedTuple_order.
  apply list_elem_of_bind. eexists. split; [left|].
  apply permutations_Permutation. symmetry. apply He.
Qed.

Lemma getMatchingExpressionVector_in_orders (fx : list expr) :
  getMatchingExpressionVector dk se fx
  ∈ getMatchingExpressionVector_orders fx.
Proof.
  unfold getMatchingExpressionVector, getMatchingExpressionVector_orders.
  apply list_elem_of_bind. exists (getExpressions dk <$> fx).
  split; [|apply getExpressions_choices]. cbv zeta.
  assert (foldl (λ acc e, acc ++ getExpressions dk e) [] fx
          = foldl app [] (getExpressions dk <$> fx)) as ->.
  { generalize (@nil expr). induction fx as [|x fx IH]; intros acc; [done|].
    simpl. apply IH. }
  rewrite _transitionListToMatchedTuple_order.
  apply list_elem_of_bind. eexists. split; [left|].
  apply permutations_Permutation. symmetry. apply He.
Qed.

(** Whatever the orders, the result of [odeToPureTransition] is one
    of [odeToPureTransition_orders]. *)
Lemma orders_sound (fx : list expr) (states : list string) :
  odeToPureTransition dk se fx states ∈ odeToPureTransition_orders fx states.
Proof.
  unfold odeToPureTransition, odeToPureTransition_orders.
  apply list_elem_of_bind.
  exists (getUnmatchedExpressionVector dk se fx).
  split; [|apply getUnmatchedExpressionVector_in_orders].
  destruct (getUnmatchedExpressionVector dk se fx) as [[bd tl]|e];
    cbn [mbind result_bind]; [|by left].
  unfold first_passes. cbn [fst snd].
  change (stripBDFromOde dk se fx (Some bd))
    with (stripBDFromOde insertion_keys first_elements fx (Some bd)).
  destruct (stripBDFromOde insertion_keys first_elements fx (Some bd))
    as [fxs|e]; cbn [mbind result_bind]; [|by left].
  destruct (_singleOriginTransition fxs tl states None) as [[A rem]|e];
    cbn [mbind result_bind]; [|by left].
  change (_odeToPureTransition dk se fxs (Some rem) (Some A))
    with (_odeToPureTransition insertion_keys first_elements
            fxs (Some rem) (Some A)).
  destruct (_odeToPureTransition insertion_keys first_elements
              fxs (Some rem) (Some A)) as [[A2 rem2]|e];
    cbn [mbind result_bind]; [|by left].
  destruct (pureTransitionToOde A2) as [fx1|e];
    cbn [mbind result_bind]; [|by left].
  destruct (vec_sub fxs fx1) as [d|e]; cbn [mbind result_bind]; [|by left].
  destruct (forallb _ _); [by left|].
  apply list_elem_of_bind. eexists.
  split; [|apply getMatchingExpressionVector_in_orders].
  left.
Qed.
End orders.

(** ** The scenarios, and the inputs on which claims fail *)

Ltac by_computation := apply (bool_decide_unpack _); vm_compute; exact I.

Lemma forallb_elem {A} (f : A → bool) (l : list A) (x : A) :
  forallb f l = true → x ∈ l → f x = true.
Proof.
  intros H Hx. apply list_elem_of_In in Hx.
  by eapply forallb_forall in H.
Qed.

(** C1.  Scenario A: whatever the orders of iteration,
    [odeToPureTransition] returns the 3 by 3 matrix with [beta*S*I] at
    [(S, I)], [gamma*I] at [(I, R)] and zero elsewhere, and the list of
    unmatched terms is empty. *)
Theorem scenario_A dk se :
  KeysOrder dk → ElementsOrder se →
  odeToPureTransition dk se fx_A states_A = Ok (A_A, []) ∧
  fst <$> getUnmatchedExpressionVector dk se fx_A = Ok [].
Proof.
  intros Hk He. split.
  - pose proof (orders_sound dk se Hk He fx_A states_A) as Hin.
    assert (Forall (λ r, r = Ok (A_A, []))
                   (odeToPureTransition_orders fx_A states_A)) as Hall
      by by_computation.
    by eapply Forall_forall in Hall.
  - pose proof (getUnmatchedExpressionVector_in_orders dk se Hk He fx_A) as Hin.
    assert (Forall (λ r, fst <$> r = Ok [])
                   (getUnmatchedExpressionVector_orders fx_A)) as Hall
      by by_computation.
    by eapply Forall_forall in Hall.
Qed.

(** C7.  Scenario B: whatever the orders of iteration,
    [getUnmatchedExpressionVector] returns the unmatched terms [mu] and
    [-gamma*I], in some order, and the matched pair
    [(beta*S*I, -beta*S*I)] alone; the transition matrix has
    [beta*S*I] at [(S, I)] and zero elsewhere. *)
Theorem scenario_B dk se :
  KeysOrder dk → ElementsOrder se →
  (∃ out, getUnmatchedExpressionVector dk se fx_B
          = Ok (out, [(bSI, neg bSI)]) ∧
          out ≡ₚ [mu; neg gI]) ∧
  odeToPureTransition dk se fx_B states_B = Ok (A_B, []).
Proof.
  intros Hk He. split.
  - pose proof (getUnmatchedExpressionVector_in_orders dk se Hk He fx_B) as Hin.
    apply (forallb_elem
             (λ r, match r with
                   | Ok (out, tl) =>
                       bool_decide (tl = [(bSI, neg bSI)] ∧
                                    out ≡ₚ [mu; neg gI])
                   | Raise _ => false
                   end)) in Hin; [|by vm_compute].
    destruct (getUnmatchedExpressionVector dk se fx_B) as [[out tl]|e];
      [|done].
    apply bool_decide_eq_true in Hin as [-> Hp]. by exists out.
  - pose proof (orders_sound dk se Hk He fx_B states_B) as Hin.
    assert (Forall (λ r, r = Ok (A_B, []))
                   (odeToPureTransition_orders fx_B states_B)) as Hall
      by by_computation.
    by eapply Forall_forall in Hall.
Qed.

(** C6, at its failing input.  For [S' = -S - beta*S], [I' = S],
    [R' = beta*S], whatever the orders of iteration,
    [odeToPureTransition] returns a matrix with [-S] on the diagonal,
    at [(R, R)]. *)
Theorem self_transition_recorded dk se :
  KeysOrder dk → ElementsOrder se →
  odeToPureTransition dk se fx_two_exits states_A = Ok (A_two_exits, []) ∧
  entry A_two_exits 2 2 = neg vS ∧ entry A_two_exits 2 2 ≠ Integer 0.
Proof.
  intros Hk He. split; [|split; by_computation].
  pose proof (orders_sound dk se Hk He fx_two_exits states_A) as Hin.
  assert (Forall (λ r, r = Ok (A_two_exits, []))
                 (odeToPureTransition_orders fx_two_exits states_A)) as Hall
    by by_computation.
  by eapply Forall_forall in Hall.
Qed.



(** The signs in Scenario A: the column of [(beta*S*I, -beta*S*I)] has
    [+1] on the row of [S], whose equation has the negative term, and
    [-1] on the row of [I], whose equation has the positive term. *)
Lemma incidence_signs_scenario_A :
  generateDirectedDependencyGraph insertion_keys first_elements fx_A
    (Some [(bSI, neg bSI); (gI, neg gI)])
  = [[1; 0]; [-1; 1]; [0; -1]].
Proof. by_computation. Qed.

Lemma stripBDFromOde_given dk se dk' se' (fx bdList : list expr) :
  stripBDFromOde dk se fx (Some bdList) = stripBDFromOde dk' se' fx (Some bdList).
Proof. done. Qed.

(** C3 does not hold.  For [S' = -2*alpha*S], [I' = alpha*S],
    [R' = alpha*S] no term is matched: whatever the orders of
    iteration, [odeToPureTransition] returns the zero matrix, whose
    reconstruction is not the input, and raises nothing. *)
Lemma incomplete_reconstruction_returned :
  ¬ ∃ dk se, KeysOrder dk ∧ ElementsOrder se ∧
             returns_checked dk se fx_split states_A.
Proof.
  intros (dk & se & Hk & He & Hc).
  pose proof (orders_sound dk se Hk He fx_split states_A) as Hin.
  apply (forallb_elem (λ r, bool_decide (r = Ok (zeros 3 3, [])))) in Hin;
    [|by vm_compute].
  apply bool_decide_eq_true in Hin.
  destruct (Hc _ _ Hin) as (bt & Hbt & Hrec).
  pose proof (getUnmatchedExpressionVector_in_orders dk se Hk He fx_split)
    as Hin2.
  rewrite Hbt in Hin2.
  apply (forallb_elem
           (λ r, match r with
                 | Ok bt =>
                     bool_decide
                       (pureTransitionToOde (zeros 3 3)
                        ≠ stripBDFromOde insertion_keys first_elements
                            fx_split
                            (Some (bt : list expr * list (expr * expr)).1))
                 | Raise _ => true
                 end)) in Hin2; [|by vm_compute].
  cbv beta iota in Hin2. apply bool_decide_eq_true in Hin2.
  rewrite (stripBDFromOde_given dk se insertion_keys first_elements) in Hrec.
  exact (Hin2 Hrec).
Qed.

(** The same input, evaluated: the zero matrix comes back although the
    ODE is not zero. *)
Lemma split_returns_zero dk se :
  KeysOrder dk → ElementsOrder se →
  odeToPureTransition dk se fx_split states_A = Ok (zeros 3 3, []).
Proof.
  intros Hk He.
  pose proof (orders_sound dk se Hk He fx_split states_A) as Hin.
  apply (forallb_elem (λ r, bool_decide (r = Ok (zeros 3 3, [])))) in Hin;
    [|by vm_compute].
  by apply bool_decide_eq_true in Hin.
Qed.


(** ** [odeToPureTransition] raises nothing and refines once *)

Lemma shaped_like_wf (A B : Matrix) : shaped_like A B → wf_Matrix B.
Proof. by intros (_ & _ & ?). Qed.

(** Pass 1 does not raise on a matrix with a row for every state and a
    column for every equation, and keeps its shape. *)
Lemma _singleOriginTransition_total (fx : list expr)
    (tl : list (expr * expr)) (states : list string) (A : Matrix) :
  wf_Matrix A → (length states ≤ rows A)%nat → (length fx ≤ cols A)%nat →
  ∃ A' rem, _singleOriginTransition fx tl states (Some A) = Ok (A', rem) ∧
            shaped_like A A'.
Proof.
  intros Hwf Hr Hc. unfold _singleOriginTransition.
  destruct (for_each_inv
              (λ st : Matrix * list (expr * expr), shaped_like A st.1)
              (λ (st : Matrix * list (expr * expr)) (kt : nat * (expr * expr)),
                 let '(A, remainTermList) := st in
                 let '(k, transitionTuple) := kt in
                 let '(t1, t2) := transitionTuple in
                 let possibleOrigin := possibleOrigin_of states t1 in
                 if decide (length possibleOrigin = 1%nat)
                 then
                   A ← for_each (λ (A : Matrix) (jf : nat * expr),
                                   let '(j, fxj) := jf in
                                   if bool_decide (possibleOrigin !!! 0%nat ≠ j)
                                      && _hasExpression fxj t1
                                   then iadd A (possibleOrigin !!! 0%nat) j t1
                                   else Ok A)
                                A (enumerate fx);
                   Ok (A, remainTermList)
                 else Ok (A, remainTermList ++ [transitionTuple]))
              (enumerate tl) (A, []))
    as ([A' rem] & Hrun & Hsh).
  - by apply shaped_like_refl.
  - intros [A1 rem1] [k [t1 t2]] _ Hsh. simpl in Hsh.
    destruct Hsh as (Hr1 & Hc1 & Hwf1).
    destruct (possibleOrigin_of states t1) as [|o [|o' os]] eqn:Hos.
    + rewrite decide_False by done. eexists. split; [done|]. by split_and!.
    + rewrite decide_True by done. change ([o] !!! 0%nat) with o.
      assert (o < rows A1)%nat as Hlt.
      { rewrite Hr1. eapply Nat.lt_le_trans; [|exact Hr].
        apply (possibleOrigin_of_lt states t1). rewrite Hos. by left. }
      destruct (origin_loop t1 o fx 0 A1) as (A2 & HA2 & Hsh2 & _);
        [done|done|lia|].
      unfold enumerate. rewrite HA2. cbn [mbind result_bind].
      eexists. split; [done|]. simpl.
      eapply shaped_like_trans; [|exact Hsh2]. by split_and!.
    + rewrite decide_False by (simpl; lia).
      eexists. split; [done|]. by split_and!.
  - exists A', rem. by split.
Qed.

(** One turn of pass 2 does not raise on a matrix with a row and a
    column for every equation, and keeps its shape. *)
Lemma _odeToPureTransition_pair_total (fx : list expr) (t1 t2 : expr)
    (A : Matrix) :
  wf_Matrix A → (length fx ≤ rows A)%nat → (length fx ≤ cols A)%nat →
  ∃ A' remain, _odeToPureTransition_pair fx t1 t2 A = Ok (A', remain) ∧
               shaped_like A A'.
Proof.
  intros Hwf Hr Hc. unfold _odeToPureTransition_pair.
  destruct (for_each_inv
              (λ st : Matrix * bool, shaped_like A st.1)
              (λ (st : Matrix * bool) (ia : nat * expr),
                 let '(i, aFrom) := ia in
                 if _hasExpression aFrom t2
                 then for_each (λ (st : Matrix * bool) (ja : nat * expr),
                                  let '(j, aTo) := ja in
                                  if _hasExpression aTo t1
                                  then A' ← iadd st.1 i j t1; Ok (A', false)
                                  else Ok st)
                               st (enumerate fx)
                 else Ok st)
              (enumerate fx) (A, true))
    as ([A' b] & Hrun & Hsh).
  - by apply shaped_like_refl.
  - intros st [i aFrom] Hi Hsh. apply elem_of_enumerate in Hi.
    apply lookup_lt_Some in Hi.
    destruct (_hasExpression aFrom t2); [|by exists st].
    apply (for_each_inv (λ st : Matrix * bool, shaped_like A st.1)); [done|].
    intros st' [j aTo] Hj Hsh'. apply elem_of_enumerate in Hj.
    apply lookup_lt_Some in Hj.
    destruct (_hasExpression aTo t1); [|by exists st'].
    destruct Hsh' as (Hr' & Hc' & Hwf').
    destruct (iadd_spec st'.1 i j t1) as (A2 & -> & Hsh2 & _); [done|lia|lia|].
    cbn [mbind result_bind]. eexists. split; [done|]. simpl.
    eapply shaped_like_trans; [|exact Hsh2]. by split_and!.
  - exists A', b. by split.
Qed.

(** Pass 2 does not raise on such a matrix either. *)
Lemma _odeToPureTransition_total dk se (fx : list expr)
    (tl : list (expr * expr)) (A : Matrix) :
  wf_Matrix A → (length fx ≤ rows A)%nat → (length fx ≤ cols A)%nat →
  ∃ A' rem, _odeToPureTransition dk se fx (Some tl) (Some A) = Ok (A', rem) ∧
            shaped_like A A'.
Proof.
  intros Hwf Hr Hc. unfold _odeToPureTransition.
  destruct (for_each_inv
              (λ st : Matrix * list (expr * expr), shaped_like A st.1)
              (λ (st : Matrix * list (expr * expr)) (tt : expr * expr),
                 let '(A, remainTransition) := st in
                 let '(t1, t2) := tt in
                 r ← _odeToPureTransition_pair fx t1 t2 A;
                 let '(A, remain) := (r : Matrix * bool) in
                 if remain then Ok (A, remainTransition ++ [(t1, t2)])
                 else Ok (A, remainTransition))
              tl (A, []))
    as ([A' rem] & Hrun & Hsh).
  - by apply shaped_like_refl.
  - intros [A1 rem1] [t1 t2] _ Hsh. simpl in Hsh.
    destruct Hsh as (Hr1 & Hc1 & Hwf1).
    destruct (_odeToPureTransition_pair_total fx t1 t2 A1)
      as (A2 & b & -> & Hsh2); [done|lia|lia|].
    cbn [mbind result_bind].
    assert (shaped_like A A2) as Hsh3.
    { eapply shaped_like_trans; [|exact Hsh2]. by split_and!. }
    destruct b; eexists; (split; [done|]); done.
  - exists A', rem. by split.
Qed.

Lemma stripBDFromOde_length dk se (fx bd v : list expr) :
  stripBDFromOde dk se fx (Some bd) = Ok v → length v = length fx.
Proof.
  unfold stripBDFromOde. cbn [mbind result_bind]. intros H.
  injection H as <-. by rewrite !length_fmap.
Qed.

Lemma pureTransitionToOde_square (A : Matrix) :
  rows A = cols A →
  ∃ v, pureTransitionToOde A = Ok v ∧ length v = rows A.
Proof.
  intros Hsq. unfold pureTransitionToOde. rewrite decide_True by done.
  eexists. split; [done|].
  rewrite !length_fmap. unfold range. rewrite length_seq. lia.
Qed.

Lemma reduce_concat_nonempty (ls : list (list expr)) :
  ls ≠ [] → ∃ l, reduce_concat ls = Ok l.
Proof. destruct ls; [done|]. intros _. by eexists. Qed.

(** C3, as the code has it.  For a non-empty ODE vector with one state
    for every equation, [odeToPureTransition] raises nothing: when the
    reconstruction of the matrix of the two passes is the stripped
    input it returns that matrix, and otherwise it matches the terms
    of the residual once, runs pass 2 on the residual with the pairs
    swapped, and returns the matrix without looking at its
    reconstruction. *)
Theorem odeToPureTransition_refines_once dk se
    (fx : list expr) (states : list string) :
  fx ≠ [] → length states = length fx →
  ∃ bt A rem diffOde A' rem',
    getUnmatchedExpressionVector dk se fx = Ok bt ∧
    first_passes fx states bt = Ok (A, rem, diffOde) ∧
    odeToPureTransition dk se fx states
    = (if forallb (λ x, bool_decide (x = Integer 0)) diffOde
       then Ok (A, rem)
       else refinement diffOde
              (getMatchingExpressionVector dk se
                 (filter (λ x, x ≠ Integer 0) diffOde)) A) ∧
    odeToPureTransition dk se fx states = Ok (A', rem') ∧
    rows A' = length fx ∧ cols A' = length fx.
Proof.
  intros Hne Hst.
  destruct (reduce_concat_nonempty (getExpressions dk <$> fx)) as [tl Htl].
  { by destruct fx. }
  assert (∃ bt, getUnmatchedExpressionVector dk se fx = Ok bt) as [bt Hbt].
  { unfold getUnmatchedExpressionVector. rewrite Htl. by eexists. }
  exists bt.
  destruct (stripBDFromOde insertion_keys first_elements fx (Some bt.1))
    as [fxs|] eqn:Hfxs; [|done].
  pose proof (stripBDFromOde_length _ _ _ _ _ Hfxs) as Hlen.
  destruct (_singleOriginTransition_total fxs bt.2 states
              (zeros (length fxs) (length fxs)))
    as (A1 & rem1 & HA1 & (Hr1 & Hc1 & Hwf1));
    [apply zeros_wf|simpl; lia|simpl; lia|].
  simpl in Hr1, Hc1.
  destruct (_odeToPureTransition_total insertion_keys first_elements
              fxs rem1 A1)
    as (A2 & rem2 & HA2 & (Hr2 & Hc2 & Hwf2)); [done|lia|lia|].
  destruct (pureTransitionToOde_square A2) as (fx1 & Hfx1 & Hl1); [lia|].
  assert (first_passes fx states bt
          = Ok (A2, rem2, simplify <$> zip_with sub fxs fx1)) as Hfirst.
  { unfold first_passes. rewrite Hfxs. cbn [mbind result_bind].
    change (_singleOriginTransition fxs bt.2 states None)
      with (_singleOriginTransition fxs bt.2 states
              (Some (zeros (length fxs) (length fxs)))).
    rewrite HA1. cbn [mbind result_bind]. rewrite HA2.
    cbn [mbind result_bind]. rewrite Hfx1. cbn [mbind result_bind].
    unfold vec_sub. rewrite decide_True by lia. done. }
  set (diffOde := simplify <$> zip_with sub fxs fx1) in *.
  assert (length diffOde = length fx) as Hld.
  { unfold diffOde. rewrite length_fmap, length_zip_with. lia. }
  assert (odeToPureTransition dk se fx states
    = (if forallb (λ x, bool_decide (x = Integer 0)) diffOde
       then Ok (A2, rem2)
       else refinement diffOde
              (getMatchingExpressionVector dk se
                 (filter (λ x, x ≠ Integer 0) diffOde)) A2)) as Hrun.
  { unfold odeToPureTransition. rewrite Hbt. cbn [mbind result_bind].
    destruct bt as [bd tl']. cbn [fst snd] in *.
    rewrite (stripBDFromOde_given dk se insertion_keys first_elements), Hfxs.
    cbn [mbind result_bind].
    change (_singleOriginTransition fxs tl' states None)
      with (_singleOriginTransition fxs tl' states
              (Some (zeros (length fxs) (length fxs)))).
    rewrite HA1. cbn [mbind result_bind].
    change (_odeToPureTransition dk se fxs (Some rem1) (Some A1))
      with (_odeToPureTransition insertion_keys first_elements
              fxs (Some rem1) (Some A1)).
    rewrite HA2. cbn [mbind result_bind]. rewrite Hfx1.
    cbn [mbind result_bind]. unfold vec_sub. rewrite decide_True by lia.
    cbn [mbind result_bind]. fold diffOde.
    destruct (forallb _ diffOde); done. }
  destruct (forallb (λ x, bool_decide (x = Integer 0)) diffOde) eqn:Hz.
  - exists A2, rem2, diffOde, A2, rem2. rewrite Hz.
    split_and!; try done; lia.
  - set (dtl := getMatchingExpressionVector dk se
                  (filter (λ x, x ≠ Integer 0) diffOde)) in *.
    destruct (_odeToPureTransition_total insertion_keys first_elements diffOde
                ((λ xy : expr * expr, (xy.2, xy.1)) <$> dtl) A2)
      as (A3 & rem3 & HA3 & (Hr3 & Hc3 & Hwf3)); [done|lia|lia|].
    destruct (pureTransitionToOde_square A3) as (fx2 & Hfx2 & _); [lia|].
    assert (refinement diffOde dtl A2 = Ok (A3, rem3)) as Href.
    { unfold refinement. cbv zeta. rewrite HA3. cbn [mbind result_bind].
      by rewrite Hfx2. }
    exists A2, rem2, diffOde, A3, rem3. rewrite Hz. fold dtl.
    rewrite Hrun, Href. split_and!; try done; lia.
Qed.

(** ** The round trip *)

Lemma insertion_keys_order : KeysOrder insertion_keys.
Proof. by intros d. Qed.

Lemma first_elements_order : ElementsOrder first_elements.
Proof. by intros s. Qed.



(** ** The theorems at concrete inputs *)

Lemma scenario_A_witness :
  odeToPureTransition insertion_keys first_elements fx_A states_A
  = Ok (A_A, []) ∧
  fst <$> getUnmatchedExpressionVector insertion_keys first_elements fx_A
  = Ok [].
Proof.
  apply scenario_A; [apply insertion_keys_order|apply first_elements_order].
Defined.

Lemma scenario_B_witness :
  (∃ out, getUnmatchedExpressionVector insertion_keys first_elements fx_B
          = Ok (out, [(bSI, neg bSI)]) ∧
          out ≡ₚ [mu; neg gI]) ∧
  odeToPureTransition insertion_keys first_elements fx_B states_B
  = Ok (A_B, []).
Proof.
  apply scenario_B; [apply insertion_keys_order|apply first_elements_order].
Defined.

Lemma self_transition_recorded_witness :
  odeToPureTransition insertion_keys first_elements fx_two_exits states_A
  = Ok (A_two_exits, []) ∧
  entry A_two_exits 2 2 = neg vS ∧ entry A_two_exits 2 2 ≠ Integer 0.
Proof.
  apply self_transition_recorded;
    [apply insertion_keys_order|apply first_elements_order].
Defined.


Lemma odeToPureTransition_refines_once_witness :
  ∃ bt A rem diffOde A' rem',
    getUnmatchedExpressionVector insertion_keys first_elements fx_split
    = Ok bt ∧
    first_passes fx_split states_A bt = Ok (A, rem, diffOde) ∧
    odeToPureTransition insertion_keys first_elements fx_split states_A
    = (if forallb (λ x, bool_decide (x = Integer 0)) diffOde
       then Ok (A, rem)
       else refinement diffOde
              (getMatchingExpressionVector insertion_keys first_elements
                 (filter (λ x, x ≠ Integer 0) diffOde)) A) ∧
    odeToPureTransition insertion_keys first_elements fx_split states_A
    = Ok (A', rem') ∧
    rows A' = length fx_split ∧ cols A' = length fx_split.
Proof.
  apply odeToPureTransition_refines_once; [discriminate|reflexivity].
Defined.

Lemma matched_tuple_positive_first_witness :
  ¬ has_literal_minus_one insertion_keys vS ∧
  has_literal_minus_one insertion_keys (neg vS) ∧
  neg vS = neg vS ∧ add vS (neg vS) = Integer 0 ∧
  vS ∈ [neg vS; vS] ∧ neg vS ∈ [neg vS; vS].
Proof.
  apply (matched_tuple_positive_first insertion_keys [neg vS; vS] vS (neg vS)).
  - by_computation.
  - unfold has_literal_minus_one. by_computation.
Defined.

Lemma pureTransitionToOde_inbound_minus_outbound_witness :
  (rows A_A = cols A_A →
     ∃ v, pureTransitionToOde A_A = Ok v ∧ length v = rows A_A ∧
          ∀ i, (i < rows A_A)%nat →
               v !! i = Some (simplify (inbound_minus_outbound A_A i))) ∧
  (rows A_A ≠ cols A_A → pureTransitionToOde A_A = Raise AssertionError).
Proof.
  apply (pureTransitionToOde_inbound_minus_outbound A_A). reflexivity.
Defined.


Lemma single_origin_pass_witness :
  match possibleOrigin_of states_A (neg gI) with
  | [o] =>
      ∃ A', _singleOriginTransition fx_A ([] ++ [(gI, neg gI)]) states_A None
              = Ok (A', []) ∧
            shaped_like (zeros 3 3) A' ∧
            entry A' o o = entry (zeros 3 3) o o ∧
            ∀ j fxj, fx_A !! j = Some fxj → j ≠ o →
                     gI ∈ additive_args fxj ∨ gI = expand fxj →
                     entry A' o j = add (entry (zeros 3 3) o j) gI
  | _ =>
      _singleOriginTransition fx_A ([] ++ [(gI, neg gI)]) states_A None
      = Ok (zeros 3 3, [] ++ [(gI, neg gI)])
  end.
Proof.
  apply (single_origin_pass fx_A states_A [] None (zeros 3 3) [] gI (neg gI)).
  - reflexivity.
  - reflexivity.
  - reflexivity.
  - reflexivity.
  - reflexivity.
  - by_computation.
Defined.

(** * Further properties of the functions *)

(** ** The decomposer *)

Lemma dict_incr_keys (k : expr) (d : dict) :
  (dict_incr k d).*1 = if decide (k ∈ d.*1) then d.*1 else d.*1 ++ [k].
Proof.
  induction d as [|[k' n] d IH]; [done|]. cbn [dict_incr].
  destruct (decide (k = k')) as [->|Hne].
  - rewrite decide_True by (cbn; left). done.
  - cbn. rewrite IH. destruct (decide (k ∈ d.*1)) as [Hin|Hin].
    + rewrite decide_True by (by right). done.
    + rewrite decide_False; [done|].
      intros [?|?]%elem_of_cons; done.
Qed.

Lemma foldl_dict_incr_keys (l : list expr) (d : dict) :
  NoDup (d.*1 ++ l) →
  (foldl (λ d x, dict_incr x d) d l).*1 = d.*1 ++ l.
Proof.
  revert d. induction l as [|x l IH]; intros d Hnd; cbn [foldl].
  - by rewrite app_nil_r.
  - assert (x ∉ d.*1) as Hx.
    { apply NoDup_app in Hnd as (_ & Hd & _). intros Hin.
      apply (Hd x Hin). by left. }
    rewrite IH; rewrite dict_incr_keys, decide_False by done.
    + by rewrite <- (assoc_L (++)).
    + by rewrite <- (assoc_L (++)).
Qed.

Lemma node_of_Add_inv (e : expr) (ts : list (mono * Z)) :
  node_of e = NAdd ts → ts = map_to_list e ∧ (2 ≤ length ts)%nat.
Proof.
  unfold node_of. destruct (map_to_list e) as [|[m c] [|t2 ts']] eqn:He.
  - done.
  - destruct (map_to_list m) as [|[s p] [|? ?]]; [done| |done].
    repeat case_decide; done.
  - intros [= <-]. split; [done|]. simpl. lia.
Qed.

Lemma args_Mul_nonempty (a : expr) : is_Mul a = true → args a ≠ [].
Proof.
  unfold is_Mul, args. destruct (node_of a) as [| | |c m|] eqn:Hn; try done.
  intros _ Hnil. apply app_eq_nil in Hnil as [_ Hm]. apply fmap_nil_inv in Hm.
  unfold node_of in Hn.
  destruct (map_to_list a) as [|[m' c'] [|? ?]]; try done.
  destruct (map_to_list m') as [|[s p] [|? ?]] eqn:Hm'; try done.
  - destruct (decide (c' = 1)); [by destruct (decide (p = 1%positive))|].
    injection Hn as <- <-. by rewrite Hm' in Hm.
  - injection Hn as <- <-. by rewrite Hm' in Hm.
Qed.

Lemma args_with_Mul_is_Add (e : expr) :
  existsb is_Mul (args e) = true →
  node_of e = NAdd (map_to_list e) ∧ args e = additive_args e.
Proof.
  intros Hex. apply existsb_exists in Hex as (a & Hin & Ha).
  apply list_elem_of_In in Hin.
  unfold args in *. destruct (node_of e) as [| | |c m|ts] eqn:Hn.
  - by apply elem_of_nil in Hin.
  - by apply elem_of_nil in Hin.
  - apply elem_of_cons in Hin as [->|Hin].
    + unfold is_Mul in Ha. change (Symbol s) with (factor (s, 1%positive)) in Ha.
      by rewrite node_of_factor in Ha.
    + apply list_elem_of_singleton in Hin as ->.
      unfold is_Mul in Ha. by rewrite node_of_Integer in Ha.
  - assert (is_Mul e = true) as HM by (unfold is_Mul; by rewrite Hn).
    assert (a ∈ args e) as Hin' by (unfold args; by rewrite Hn).
    by rewrite (args_Mul_not_Mul e a HM Hin') in Ha.
  - apply node_of_Add_inv in Hn as [-> _]. done.
Qed.

Lemma NoDup_additive_args (e : expr) : NoDup (additive_args e).
Proof.
  unfold additive_args, expand.
  apply (NoDup_fmap_1 (λ x : expr, fst <$> map_to_list x)).
  rewrite <- list_fmap_compose.
  assert ((λ x : expr, (map_to_list x).*1) ∘ (λ t : mono * Z, ({[t.1 := t.2]} : expr))
            <$> map_to_list e
          = (λ m, [m]) <$> (map_to_list e).*1) as ->.
  { rewrite <- list_fmap_compose. apply list_fmap_ext. intros i [m c] _. simpl.
    by rewrite map_to_list_singleton. }
  apply NoDup_fmap_2; [|apply NoDup_fst_map_to_list].
  by intros m1 m2 [= ->].
Qed.

Lemma atoms_Add_with_Mul (e : expr) :
  existsb is_Mul (args e) = true → (1 < length (atoms e))%nat.
Proof.
  intros Hex. destruct (args_with_Mul_is_Add e Hex) as [Hn Hargs].
  apply existsb_exists in Hex as (a & Hin & Ha).
  apply list_elem_of_In in Hin. rewrite Hargs in Hin.
  unfold additive_args, expand in Hin.
  apply list_elem_of_fmap in Hin as ([m c] & -> & Hmc). simpl in Ha.
  pose proof (atoms_Mul _ Ha) as Hlen.
  unfold atoms in *. rewrite map_to_list_singleton in Hlen.
  rewrite bind_cons in Hlen.
  change (([] : list (mono * Z)) ≫= atoms_term) with ([] : list expr) in Hlen.
  rewrite app_nil_r in Hlen.
  assert (match map_to_list e with
          | [] => [Integer 0]
          | p :: l => remove_dups ((p :: l) ≫= atoms_term)
          end = remove_dups (map_to_list e ≫= atoms_term)) as ->.
  { apply node_of_Add_inv in Hn as [_ Hlen2]. revert Hlen2.
    destruct (map_to_list e); simpl; [lia|done]. }
  destruct (remove_dups (atoms_term (m, c))) as [|x [|y k]] eqn:Hrd;
    simpl in Hlen; try lia.
  assert (x ≠ y) as Hxy.
  { pose proof (NoDup_remove_dups (atoms_term (m, c))) as Hnd.
    rewrite Hrd in Hnd. apply NoDup_cons in Hnd as [Hnd _].
    intros ->. apply Hnd. by left. }
  assert (∀ z, z ∈ atoms_term (m, c) → z ∈ map_to_list e ≫= atoms_term) as Hsub.
  { intros z Hz. apply list_elem_of_bind. by exists (m, c). }
  apply (length_remove_dups_2 _ x y); [| |done].
  - apply Hsub, elem_of_remove_dups. rewrite Hrd. by left.
  - apply Hsub, elem_of_remove_dups. rewrite Hrd. right. by left.
Qed.

(** X1.  For a sum with a product among its terms [getExpressions] returns
    the terms of the sum, in some order; every other expression (a
    number, a symbol, a power, a single product, and also a sum of
    numbers, symbols and powers) is returned whole, as one term. *)
Theorem getExpressions_terms dk (e : expr) :
  KeysOrder dk →
  (existsb is_Mul (args (expand e)) = true →
   getExpressions dk e ≡ₚ additive_args e) ∧
  (existsb is_Mul (args (expand e)) = false → getExpressions dk e = [e]).
Proof.
  intros Hk. unfold getExpressions, expand. split; intros Hex.
  - rewrite (Hk _), _getExpression_S. cbv zeta.
    rewrite decide_True by (by apply atoms_Add_with_Mul).
    assert (forallb (λ n, Nat.eqb n 0) (_expressionLength <$> args e) = false)
      as ->.
    { apply not_true_is_false. intros Hall.
      apply existsb_exists in Hex as (a & Hin & Ha).
      apply list_elem_of_In in Hin.
      assert (Nat.eqb (_expressionLength a) 0 = true) as Hz.
      { eapply forallb_forall in Hall; [exact Hall|].
        apply list_elem_of_In, list_elem_of_fmap. by exists a. }
      unfold _expressionLength in Hz. rewrite Ha in Hz.
      apply Nat.eqb_eq in Hz. apply (args_Mul_nonempty a Ha).
      by apply nil_length_inv. }
    assert (foldl (λ d ti,
                     if Nat.eqb (_expressionLength ti) 0 then dict_incr ti d
                     else if is_Mul ti then _getExpression 1 ti d
                     else if is_Pow ti then dict_incr ti d else d) [] (args e)
            = foldl (λ d x, dict_incr x d) [] (args e)) as ->.
    { apply foldl_ext_elem. intros d x _.
      destruct (Nat.eqb (_expressionLength x) 0) eqn:Hl; [done|].
      apply _expressionLength_pos_Mul in Hl. rewrite Hl.
      by apply _getExpression_Mul. }
    destruct (args_with_Mul_is_Add e Hex) as [_ ->].
    rewrite foldl_dict_incr_keys; [done|]. apply NoDup_additive_args.
  - assert (dk (_getExpression 2 e []) ≡ₚ [e]) as Hp.
    { rewrite (Hk _), _getExpression_S. cbv zeta.
      assert (forallb (λ n, Nat.eqb n 0)
                (_expressionLength
                   <$> (if decide (1 < length (atoms e))%nat
                        then args e else [e])) = true) as ->; [|done].
      apply forallb_fmap_true. intros x Hx. apply Nat.eqb_eq.
      apply _expressionLength_not_Mul. case_decide as Hat.
      - apply not_true_is_false. intros Hm.
        assert (existsb is_Mul (args e) = true) as Hc; [|congruence].
        apply existsb_exists. exists x. split; [|done].
        by apply list_elem_of_In.
      - apply list_elem_of_singleton in Hx as ->.
        apply not_true_is_false. intros Hm. apply atoms_Mul in Hm. lia. }
    symmetry in Hp. by apply Permutation_singleton_l in Hp.
Qed.

(** ** The matcher *)

Lemma elem_of_findMatchingExpression (l : list expr) (y : expr) :
  y ∈ _findMatchingExpression l ↔
  ∃ i j, i ≠ j ∧ l !! i = Some y ∧ l !! j = Some (neg y).
Proof.
  unfold _findMatchingExpression. rewrite list_elem_of_bind. split.
  - intros (i & Hin & Hi). apply list_elem_of_bind in Hin as (j & Hin & Hj).
    apply elem_of_range in Hi, Hj.
    destruct (lookup_lt_is_Some_2 l i) as [a Ha]; [lia|].
    destruct (lookup_lt_is_Some_2 l j) as [b Hb]; [lia|].
    rewrite (list_lookup_total_correct _ _ _ Ha),
      (list_lookup_total_correct _ _ _ Hb) in Hin.
    case_decide as Hab; [|by apply elem_of_nil in Hin].
    pose proof (add_cancel _ _ Hab) as Hneg.
    apply elem_of_cons in Hin as [->|Hin].
    + exists i, j. split; [lia|]. by rewrite <- Hneg.
    + apply list_elem_of_singleton in Hin as ->.
      exists j, i. split; [lia|]. split; [done|].
      by rewrite Hneg, neg_involutive.
  - intros (i & j & Hij & Hi & Hj).
    destruct (decide (i < j)%nat) as [Hlt|Hge].
    + exists i. split.
      * apply list_elem_of_bind. exists j. split.
        -- rewrite (list_lookup_total_correct _ _ _ Hi),
             (list_lookup_total_correct _ _ _ Hj).
           rewrite decide_True by apply add_neg. by left.
        -- apply elem_of_range. apply lookup_lt_Some in Hj. lia.
      * apply elem_of_range. apply lookup_lt_Some in Hj. lia.
    + exists j. split.
      * apply list_elem_of_bind. exists i. split.
        -- rewrite (list_lookup_total_correct _ _ _ Hi),
             (list_lookup_total_correct _ _ _ Hj).
           rewrite decide_True by (rewrite add_comm; apply add_neg).
           right. by left.
        -- apply elem_of_range. apply lookup_lt_Some in Hi. lia.
      * apply elem_of_range. apply lookup_lt_Some in Hi. lia.
Qed.

(** X2.  [_findMatchingExpression] returns the entries of the list that
    cancel with an entry at another position, and with an entry it
    returns its negation; nothing is matched in a list of fewer than
    two entries. *)
Theorem _findMatchingExpression_cancelling (l : list expr) (x : expr) :
  (x ∈ _findMatchingExpression l ↔
   ∃ i j, i ≠ j ∧ l !! i = Some x ∧ l !! j = Some (neg x)) ∧
  (x ∈ _findMatchingExpression l → neg x ∈ _findMatchingExpression l) ∧
  ((length l < 2)%nat → _findMatchingExpression l = []).
Proof.
  split; [apply elem_of_findMatchingExpression|]. split.
  - intros Hx. apply elem_of_findMatchingExpression in Hx
      as (i & j & Hij & Hi & Hj).
    apply elem_of_findMatchingExpression. exists j, i.
    split; [done|]. split; [done|]. by rewrite neg_involutive.
  - intros Hlen. destruct l as [|a [|b l]]; [done|done|simpl in Hlen; lia].
Qed.

Lemma foldl_app_concat {A} (l : list A) (ls : list (list A)) :
  foldl app l ls = l ++ concat ls.
Proof.
  revert l. induction ls as [|k ls IH]; intros l; simpl.
  - by rewrite app_nil_r.
  - by rewrite IH, (assoc_L (++)).
Qed.

(** X3.  [getUnmatchedExpressionVector] raises on an empty vector, where
    [reduce] has nothing to start from.  On any other vector it returns
    without repetition the terms of the equations that cancel with no
    term at another place, and tuples of two terms of the equations
    that cancel. *)
Theorem getUnmatchedExpressionVector_unmatched dk se (fx : list expr) :
  ElementsOrder se →
  (fx = [] → getUnmatchedExpressionVector dk se fx = Raise TypeError) ∧
  (fx ≠ [] →
   ∃ out tl,
     getUnmatchedExpressionVector dk se fx = Ok (out, tl) ∧
     NoDup out ∧
     (∀ x, x ∈ out ↔
        x ∈ concat (getExpressions dk <$> fx) ∧
        ¬ ∃ i j, i ≠ j ∧
            concat (getExpressions dk <$> fx) !! i = Some x ∧
            concat (getExpressions dk <$> fx) !! j = Some (neg x)) ∧
     (∀ p q, (p, q) ∈ tl →
        add p q = Integer 0 ∧
        p ∈ concat (getExpressions dk <$> fx) ∧
        q ∈ concat (getExpressions dk <$> fx))).
Proof.
  intros He. split.
  - by intros ->.
  - intros Hne. unfold getUnmatchedExpressionVector.
    destruct fx as [|e fx]; [done|]. cbn [fmap list_fmap reduce_concat].
    cbn [mbind result_bind]. rewrite foldl_app_concat.
    change (getExpressions dk e ++ concat (list_fmap _ _ (getExpressions dk) fx))
      with (concat (getExpressions dk <$> e :: fx)).
    set (terms := concat (getExpressions dk <$> e :: fx)).
    eexists _, _. split; [done|]. split; [|split].
    + rewrite (He _). unfold set_minus, set_of.
      apply NoDup_list_difference, NoDup_remove_dups.
    + intros x. rewrite (He _). unfold set_minus, set_of.
      rewrite list_elem_of_difference, !elem_of_remove_dups.
      by rewrite elem_of_findMatchingExpression.
    + intros p q Hpq. apply elem_of_matched_tuple in Hpq
        as (i & j & a & b & Hij & Ha & Hb & Hab & Hcase).
      apply list_elem_of_lookup_2 in Ha, Hb.
      apply elem_of_findMatchingExpression in Ha as (? & _ & _ & Ha & _).
      apply elem_of_findMatchingExpression in Hb as (? & _ & _ & Hb & _).
      apply list_elem_of_lookup_2 in Ha, Hb.
      destruct Hcase as [(_ & -> & ->)|(_ & -> & ->)]; [|done].
      by rewrite add_comm.
Qed.

(** X4.  [getMatchingExpressionVector] returns, on every vector, tuples of
    two terms of the equations that cancel; on the empty vector it
    returns no tuple. *)
Theorem getMatchingExpressionVector_cancelling dk se (fx : list expr) :
  ElementsOrder se →
  (∀ p q, (p, q) ∈ getMatchingExpressionVector dk se fx →
     add p q = Integer 0 ∧
     p ∈ concat (getExpressions dk <$> fx) ∧
     q ∈ concat (getExpressions dk <$> fx)) ∧
  (fx = [] → getMatchingExpressionVector dk se fx = []).
Proof.
  intros He. split.
  - intros p q. unfold getMatchingExpressionVector.
    assert (foldl (λ acc e, acc ++ getExpressions dk e) [] fx
            = concat (getExpressions dk <$> fx)) as ->.
    { rewrite <- (app_nil_l (concat _)). generalize (@nil expr).
      induction fx as [|x fx IH]; intros acc; simpl.
      - by rewrite app_nil_r.
      - by rewrite IH, (assoc_L (++)). }
    intros Hpq. apply elem_of_matched_tuple in Hpq
      as (i & j & a & b & Hij & Ha & Hb & Hab & Hcase).
    apply list_elem_of_lookup_2 in Ha, Hb.
    rewrite (He _) in Ha, Hb. unfold set_of in Ha, Hb.
    rewrite elem_of_remove_dups in Ha. rewrite elem_of_remove_dups in Hb.
    apply elem_of_findMatchingExpression in Ha as (? & _ & _ & Ha & _).
    apply elem_of_findMatchingExpression in Hb as (? & _ & _ & Hb & _).
    apply list_elem_of_lookup_2 in Ha, Hb.
    destruct Hcase as [(_ & -> & ->)|(_ & -> & ->)]; [|done].
    by rewrite add_comm.
  - intros ->. unfold getMatchingExpressionVector. cbn [foldl].
    assert (se (set_of (_findMatchingExpression [])) = []) as ->; [|done].
    apply Permutation_nil_r. exact (He []).
Qed.

Lemma elem_of_foldl_dict_incr (l : list expr) (d : dict) (x : expr) :
  x ∈ (foldl (λ d y, dict_incr y d) d l).*1 ↔ x ∈ d.*1 ∨ x ∈ l.
Proof.
  revert d. induction l as [|y l IH]; intros d; cbn [foldl].
  - rewrite elem_of_nil. tauto.
  - rewrite IH, dict_incr_keys, elem_of_cons. case_decide as Hy.
    + split; [tauto|]. intros [?|[->|?]]; tauto.
    + rewrite elem_of_app, list_elem_of_singleton. tauto.
Qed.

Lemma elem_of_getLeaf_1_Mul (a : expr) (d : dict) (x : expr) :
  is_Mul a = true →
  x ∈ (_getLeaf 1 a d).*1 ↔ x ∈ d.*1 ∨ x ∈ args a.
Proof.
  intros Ha. rewrite (_getLeaf_Mul 0 a d Ha). apply elem_of_foldl_dict_incr.
Qed.

Lemma elem_of_getLeaf_2 (l : list expr) (d : dict) (x : expr) :
  x ∈ (foldl (λ d ti,
                if Nat.eqb (_expressionLength ti) 0 then dict_incr ti d
                else _getLeaf 1 ti d) d l).*1
  ↔ x ∈ d.*1 ∨ ∃ a, a ∈ l ∧ if is_Mul a then x ∈ args a else x = a.
Proof.
  revert d. induction l as [|y l IH]; intros d; cbn [foldl].
  - split; [tauto|]. intros [?|(a & Ha & _)]; [done|].
    by apply elem_of_nil in Ha.
  - rewrite IH. clear IH.
    destruct (Nat.eqb (_expressionLength y) 0) eqn:Hl.
    + assert (is_Mul y = false) as Hy.
      { apply not_true_is_false. intros Hm.
        apply Nat.eqb_eq in Hl. unfold _expressionLength in Hl.
        rewrite Hm in Hl. apply nil_length_inv in Hl.
        by apply (args_Mul_nonempty y). }
      rewrite dict_incr_keys. split.
      * intros [Hd|(a & Ha & Hx)].
        -- case_decide; [by left|].
           apply elem_of_app in Hd as [?|Hd]; [by left|].
           apply list_elem_of_singleton in Hd as ->.
           right. exists y. split; [by left|]. by rewrite Hy.
        -- right. exists a. split; [by right|done].
      * intros [Hd|(a & Ha & Hx)].
        -- left. case_decide; [done|]. apply elem_of_app. by left.
        -- apply elem_of_cons in Ha as [->|Ha].
           ++ rewrite Hy in Hx. subst x. left.
              case_decide; [done|]. apply elem_of_app. right. by left.
           ++ right. by exists a.
    + apply _expressionLength_pos_Mul in Hl. split.
      * intros [Hd|(a & Ha & Hx)].
        -- apply (elem_of_getLeaf_1_Mul y d x Hl) in Hd as [?|Hd]; [by left|].
           right. exists y. split; [by left|]. by rewrite Hl.
        -- right. exists a. split; [by right|done].
      * intros [Hd|(a & Ha & Hx)].
        -- left. apply (elem_of_getLeaf_1_Mul y d x Hl). by left.
        -- apply elem_of_cons in Ha as [->|Ha].
           ++ rewrite Hl in Hx. left.
              apply (elem_of_getLeaf_1_Mul y d x Hl). by right.
           ++ right. by exists a.
Qed.

Lemma elem_of_getLeafs dk (e x : expr) :
  KeysOrder dk →
  x ∈ getLeafs dk e ↔
  ∃ a, a ∈ args (expand e) ∧ if is_Mul a then x ∈ args a else x = a.
Proof.
  intros Hk. unfold getLeafs. rewrite (Hk _), _getLeaf_S.
  rewrite elem_of_getLeaf_2. split; [|by right].
  intros [Hnil|?]; [|done]. by apply elem_of_nil in Hnil.
Qed.

(** X5.  The leafs of an expression are its arguments that are not products
    and the factors of its arguments that are products.  So a number or
    a symbol alone has no leaf, and a power alone is broken down into
    its base and its exponent, while a power inside a product is kept
    whole. *)
Theorem getLeafs_args dk (e x : expr) :
  KeysOrder dk →
  (x ∈ getLeafs dk e ↔
   ∃ a, a ∈ args (expand e) ∧ if is_Mul a then x ∈ args a else x = a) ∧
  (∀ z, getLeafs dk (Integer z) = []) ∧
  (∀ s, getLeafs dk (Symbol s) = []) ∧
  (∀ s p, p ≠ 1%positive →
     getLeafs dk (factor (s, p)) ≡ₚ [Symbol s; Integer (Z.pos p)]).
Proof.
  intros Hk. split; [by apply elem_of_getLeafs|].
  assert (∀ e0, args e0 = [] → getLeafs dk e0 = []) as Hatom.
  { intros e0 He. apply Permutation_nil_r. unfold getLeafs, expand.
    rewrite (Hk _), _getLeaf_S, He. done. }
  split; [|split].
  - intros z. apply Hatom. unfold args. by rewrite node_of_Integer.
  - intros s. apply Hatom. unfold args.
    change (Symbol s) with (factor (s, 1%positive)).
    by rewrite node_of_factor.
  - intros s p Hp. unfold getLeafs, expand. rewrite (Hk _), _getLeaf_S.
    unfold args at 1. rewrite node_of_factor, decide_False by done.
    cbn [foldl fst snd].
    assert (is_Mul (Symbol s) = false) as HmS.
    { unfold is_Mul. change (Symbol s) with (factor (s, 1%positive)).
      by rewrite node_of_factor. }
    assert (is_Mul (Integer (Z.pos p)) = false) as HmI.
    { unfold is_Mul. by rewrite node_of_Integer. }
    rewrite (_expressionLength_not_Mul _ HmS), (_expressionLength_not_Mul _ HmI).
    cbn. rewrite decide_False; [done|].
    intros H. symmetry in H. by apply Symbol_neq_Integer in H.
Qed.

Lemma Integer_inj (z z' : Z) : Integer z = Integer z' → z = z'.
Proof.
  unfold Integer.
  destruct (decide (z = 0)) as [Hz|Hz], (decide (z' = 0)) as [Hz'|Hz'];
    intros Heq; [congruence|..];
    apply (f_equal (λ e : expr, e !! (∅ : mono))) in Heq;
    rewrite ?lookup_empty, ?lookup_singleton_eq in Heq; congruence.
Qed.

Lemma factor_neq_Integer (sp : string * positive) (z : Z) :
  factor sp ≠ Integer z.
Proof.
  unfold factor, Integer. case_decide as Hz.
  - intros H.
    apply (f_equal (λ e : expr, e !! ({[sp.1 := sp.2]} : mono))) in H.
    by rewrite lookup_singleton_eq, lookup_empty in H.
  - intros H. apply (f_equal (λ e : expr, e !! (∅ : mono))) in H.
    rewrite lookup_singleton_eq in H.
    rewrite lookup_singleton_ne in H; [done|].
    intros Hs. apply (f_equal (λ m : mono, m !! sp.1)) in Hs.
    by rewrite lookup_singleton_eq, lookup_empty in Hs.
Qed.

(** A single term [c * m] has the literal [-1] among its leafs exactly
    when its coefficient is [-1] and it is not the number [-1] alone. *)
Lemma has_literal_minus_one_term dk (m : mono) (c : Z) :
  KeysOrder dk →
  has_literal_minus_one dk ({[m := c]} : expr) ↔ c = -1 ∧ m ≠ ∅.
Proof.
  intros Hk. unfold has_literal_minus_one. rewrite (elem_of_getLeafs dk) by done.
  unfold expand.
  assert (∀ a, a ∈ args ({[m := c]} : expr) → is_Mul a = false) as Hnm.
  { intros a Ha. unfold args, node_of in Ha.
    rewrite map_to_list_singleton in Ha.
    destruct (map_to_list m) as [|[s p] [|? ?]] eqn:Hm.
    - by apply elem_of_nil in Ha.
    - destruct (decide (c = 1)).
      + destruct (decide (p = 1%positive)); [by apply elem_of_nil in Ha|].
        apply elem_of_cons in Ha as [->|Ha].
        * unfold is_Mul. change (Symbol s) with (factor (s, 1%positive)).
          by rewrite node_of_factor.
        * apply list_elem_of_singleton in Ha as ->.
          unfold is_Mul. by rewrite node_of_Integer.
      + apply (args_Mul_not_Mul ({[m := c]} : expr)).
        * unfold is_Mul, node_of. rewrite map_to_list_singleton, Hm.
          by rewrite decide_False.
        * unfold args, node_of. rewrite map_to_list_singleton, Hm.
          by rewrite decide_False.
    - apply (args_Mul_not_Mul ({[m := c]} : expr)).
      * unfold is_Mul, node_of. by rewrite map_to_list_singleton, Hm.
      * unfold args, node_of. by rewrite map_to_list_singleton, Hm. }
  split.
  - intros (a & Ha & Hx). rewrite (Hnm a Ha) in Hx. subst a.
    unfold args, node_of in Ha. rewrite map_to_list_singleton in Ha.
    destruct (map_to_list m) as [|[s p] k] eqn:Hm.
    { by apply elem_of_nil in Ha. }
    assert (m ≠ ∅) as Hne by (intros ->; by rewrite map_to_list_empty in Hm).
    split; [|done].
    assert (Integer (-1)
            ∈ (if decide (c = 1) then [] else [Integer c])
              ++ (factor <$> map_to_list m) → c = -1) as Hcase.
    { intros [Hin|Hin]%elem_of_app.
      - case_decide; [by apply elem_of_nil in Hin|].
        apply list_elem_of_singleton in Hin. by apply Integer_inj in Hin.
      - apply list_elem_of_fmap in Hin as (sp & Heq & _).
        symmetry in Heq. by apply factor_neq_Integer in Heq. }
    destruct k as [|? ?].
    + destruct (decide (c = 1)) as [->|Hc].
      * destruct (decide (p = 1%positive)); [by apply elem_of_nil in Ha|].
        apply elem_of_cons in Ha as [Ha|Ha].
        -- symmetry in Ha. by apply Symbol_neq_Integer in Ha.
        -- apply list_elem_of_singleton in Ha. by apply Integer_inj in Ha.
      * apply Hcase. by rewrite decide_False in Ha.
    + by apply Hcase.
  - intros [-> Hne]. exists (Integer (-1)). split.
    + unfold args, node_of. rewrite map_to_list_singleton.
      destruct (map_to_list m) as [|[s p] [|? ?]] eqn:Hm.
      * by apply map_to_list_empty_iff in Hm.
      * rewrite decide_False by done. by left.
      * rewrite decide_False by done. by left.
    + unfold is_Mul. by rewrite node_of_Integer.
Qed.

Lemma _transitionListToMatchedTuple_two dk (a b : expr) :
  _transitionListToMatchedTuple dk [a; b]
  = if decide (add a b = Integer 0)
    then if decide (Integer (-1) ∈ getLeafs dk a) then [(b, a)] else [(a, b)]
    else [].
Proof.
  unfold _transitionListToMatchedTuple. cbn. rewrite !app_nil_r.
  change (union_with _ a b) with (add a b).
  destruct (decide (add a b = Integer 0)); [|done].
  by destruct (decide (Integer (-1) ∈ getLeafs dk a)).
Qed.

(** X6.  The positive term is first only for unit coefficients.  For the two
    terms [-c * m] and [c * m] with [c] other than [0], [1] and [-1],
    neither has the literal [-1], and the tuple keeps the order of the
    list: with the negative term first in the list, the tuple has the
    negative term first. *)
Theorem matched_tuple_list_order dk (m : mono) (c : Z) :
  KeysOrder dk → c ≠ 0 → c ≠ 1 → c ≠ -1 →
  ¬ has_literal_minus_one dk ({[m := - c]} : expr) ∧
  ¬ has_literal_minus_one dk ({[m := c]} : expr) ∧
  _transitionListToMatchedTuple dk [({[m := - c]} : expr); {[m := c]}]
  = [(({[m := - c]} : expr), ({[m := c]} : expr))].
Proof.
  intros Hk H0 H1 H2.
  assert (¬ has_literal_minus_one dk ({[m := - c]} : expr)) as Hn1.
  { rewrite has_literal_minus_one_term by done. intros [? _]. lia. }
  assert (¬ has_literal_minus_one dk ({[m := c]} : expr)) as Hn2.
  { rewrite has_literal_minus_one_term by done. intros [? _]. lia. }
  split; [done|]. split; [done|].
  rewrite _transitionListToMatchedTuple_two.
  rewrite decide_True.
  - by rewrite decide_False.
  - rewrite Integer_0. apply map_eq. intros k.
    rewrite lookup_add, lookup_empty.
    destruct (decide (k = m)) as [->|Hne].
    + rewrite !lookup_singleton_eq. unfold union_with, option_union_with.
      by rewrite decide_True by lia.
    + by rewrite !lookup_singleton_ne.
Qed.

(** ** What [_hasExpression] finds *)

Lemma args_Add (eq : expr) : (1 < size eq)%nat → args eq = additive_args eq.
Proof.
  intros Hs. unfold args, additive_args, node_of, expand.
  rewrite <- length_map_to_list in Hs.
  destruct (map_to_list eq) as [|[? ?] [|? ?]]; simpl in Hs; [lia|lia|done].
Qed.

Lemma args_Mul (m : mono) (c : Z) :
  is_Mul ({[m := c]} : expr) = true →
  args ({[m := c]} : expr)
  = (if decide (c = 1) then [] else [Integer c]) ++ (factor <$> map_to_list m).
Proof.
  unfold is_Mul, args, node_of. rewrite map_to_list_singleton.
  destruct (map_to_list m) as [|[s p] [|? ?]] eqn:Hm; [done| |by rewrite Hm].
  destruct (decide (c = 1)); [|by rewrite Hm, decide_False].
  by destruct (decide (p = 1%positive)).
Qed.

(** X7.  In an equation of several terms [_hasExpression] finds the
    equation itself and its terms: a single term [c * m] is found
    exactly when [c] is the coefficient of [m] in the equation. *)
Theorem _hasExpression_sum (eq e : expr) :
  (1 < size eq)%nat →
  _hasExpression eq e = true
  ↔ e = eq ∨ ∃ m c, e = {[m := c]} ∧ eq !! m = Some c.
Proof.
  intros Hs. unfold _hasExpression, expand. rewrite (args_Add eq Hs).
  unfold additive_args, expand. split.
  - intros H. destruct (decide (e ∈ _)) as [Hin|Hin].
    + right. apply list_elem_of_fmap in Hin as ([m c] & -> & Hin).
      exists m, c. split; [done|]. by apply elem_of_map_to_list in Hin.
    + destruct (decide (e = eq)); [by left|done].
  - intros [->|(m & c & -> & Hm)].
    + rewrite (decide_True (P := eq = eq)) by done. by case_decide.
    + rewrite (decide_True (P := _ ∈ _)); [done|].
      apply list_elem_of_fmap. exists (m, c). split; [done|].
      by apply elem_of_map_to_list.
Qed.

(** X8.  In an equation that is one product, [_hasExpression] looks
    among the factors: it finds the coefficient and every symbol or
    power of the product, so that [-x] has [x]. *)
Theorem _hasExpression_factors (m : mono) (c : Z) :
  is_Mul ({[m := c]} : expr) = true →
  (c ≠ 1 → _hasExpression {[m := c]} (Integer c) = true) ∧
  (∀ s p, m !! s = Some p →
          _hasExpression {[m := c]} (factor (s, p)) = true).
Proof.
  intros HM. unfold _hasExpression, expand. rewrite (args_Mul m c HM). split.
  - intros Hc. rewrite (decide_True (P := _ ∈ _)); [done|].
    rewrite decide_False by done. by left.
  - intros s p Hsp. rewrite (decide_True (P := _ ∈ _)); [done|].
    apply elem_of_app. right. apply list_elem_of_fmap. exists (s, p).
    split; [done|]. by apply elem_of_map_to_list.
Qed.

(** ** [_findIndex] *)

Lemma omap_enumerate_sorted {A} (P : A → bool) (l : list A) (k : nat) :
  StronglySorted lt
    (omap (λ ia : nat * A, if P ia.2 then Some ia.1 else None)
          (zip (seq k (length l)) l)) ∧
  Forall (λ i, k ≤ i)%nat
    (omap (λ ia : nat * A, if P ia.2 then Some ia.1 else None)
          (zip (seq k (length l)) l)).
Proof.
  revert k. induction l as [|a l IH]; intros k; simpl.
  - split; constructor.
  - destruct (IH (S k)) as [Hs Hf].
    assert (Forall (λ i, k < i)%nat
              (omap (λ ia : nat * A, if P ia.2 then Some ia.1 else None)
                    (zip (seq (S k) (length l)) l))) as Hlt.
    { eapply Forall_impl; [exact Hf|]. intros; simpl in *; lia. }
    destruct (P a); simpl.
    + split; [by constructor|]. constructor; [lia|].
      eapply Forall_impl; [exact Hf|]. intros; simpl in *; lia.
    + split; [done|]. eapply Forall_impl; [exact Hf|]. intros; simpl in *; lia.
Qed.

(** X9.  [_findIndex] returns the positions of the equations that have
    the expression, each once and in increasing order. *)
Theorem _findIndex_increasing (eqVec : list expr) (e : expr) :
  (∀ i, i ∈ _findIndex eqVec e
        ↔ ∃ a, eqVec !! i = Some a ∧ _hasExpression a e = true) ∧
  StronglySorted lt (_findIndex eqVec e).
Proof.
  split.
  - intros i. unfold _findIndex. rewrite list_elem_of_omap. split.
    + intros ([k a] & Hin & Hk). simpl in Hk.
      destruct (_hasExpression a e) eqn:Ha; [|done]. injection Hk as ->.
      exists a. split; [|done]. by apply elem_of_enumerate.
    + intros (a & Hi & Ha). exists (i, a). split.
      * by apply elem_of_enumerate.
      * simpl. by rewrite Ha.
  - unfold _findIndex, enumerate.
    apply (omap_enumerate_sorted (λ a, _hasExpression a e) eqVec 0).
Qed.

(** ** The incidence array *)

(** X10.  The incidence array has a row for every equation and a column
    for every pair.  An entry is zero exactly when the equation has
    both terms of the pair or neither, and the array of the pairs
    turned round is the negated array. *)
Theorem generateDirectedDependencyGraph_swap dk se
    (fx : list expr) (tl : list (expr * expr)) :
  length (generateDirectedDependencyGraph dk se fx (Some tl)) = length fx ∧
  (∀ row, row ∈ generateDirectedDependencyGraph dk se fx (Some tl) →
          length row = length tl) ∧
  (∀ i j a t1 t2,
     fx !! i = Some a → tl !! j = Some (t1, t2) →
     ∃ row b,
       generateDirectedDependencyGraph dk se fx (Some tl) !! i = Some row ∧
       row !! j = Some b ∧
       (b = 0 ↔ _hasExpression a t1 = _hasExpression a t2)) ∧
  generateDirectedDependencyGraph dk se fx
    (Some ((λ p : expr * expr, (p.2, p.1)) <$> tl))
  = (λ row : list Z, Z.opp <$> row)
      <$> generateDirectedDependencyGraph dk se fx (Some tl).
Proof.
  unfold generateDirectedDependencyGraph. split_and!.
  - by rewrite length_fmap.
  - intros row (a & -> & _)%list_elem_of_fmap. by rewrite length_fmap.
  - intros i j a t1 t2 Hi Hj. eexists _, _. split_and!.
    + rewrite list_lookup_fmap, Hi. done.
    + rewrite list_lookup_fmap, Hj. done.
    + destruct (_hasExpression a t1), (_hasExpression a t2); simpl;
        split; (done || lia).
  - rewrite <- list_fmap_compose. apply list_fmap_ext. intros _ a _. simpl.
    rewrite <- !list_fmap_compose. apply list_fmap_ext. intros _ [t1 t2] _.
    simpl. destruct (_hasExpression a t1), (_hasExpression a t2); done.
Qed.

(** ** Coefficients *)

Lemma coef_add (a b : expr) (m : mono) :
  coef (add a b) m = coef a m + coef b m.
Proof.
  unfold coef. rewrite lookup_add.
  destruct (a !! m) as [x|], (b !! m) as [y|]; simpl; try lia.
  unfold union_with, option_union_with. case_decide; simpl; lia.
Qed.

Lemma coef_neg (a : expr) (m : mono) : coef (neg a) m = - coef a m.
Proof. unfold coef. rewrite lookup_neg. by destruct (a !! m). Qed.

Lemma coef_sub (a b : expr) (m : mono) :
  coef (sub a b) m = coef a m - coef b m.
Proof. unfold sub. rewrite coef_add, coef_neg. lia. Qed.

Lemma coef_0 (m : mono) : coef (Integer 0) m = 0.
Proof. done. Qed.

Lemma wf_expr_add (a b : expr) : wf_expr a → wf_expr b → wf_expr (add a b).
Proof.
  intros Ha Hb m. rewrite lookup_add. specialize (Ha m). specialize (Hb m).
  destruct (a !! m) as [x|], (b !! m) as [y|]; simpl; try done.
  unfold union_with, option_union_with. case_decide; [done|]. congruence.
Qed.

Lemma wf_expr_neg (a : expr) : wf_expr a → wf_expr (neg a).
Proof.
  intros Ha m. rewrite lookup_neg. specialize (Ha m).
  destruct (a !! m) as [x|]; simpl; [|done].
  intros [= Hx]. apply Ha. f_equal. lia.
Qed.

Lemma wf_expr_sub (a b : expr) : wf_expr a → wf_expr b → wf_expr (sub a b).
Proof. intros. by apply wf_expr_add, wf_expr_neg. Qed.

Lemma wf_expr_0 : wf_expr (Integer 0).
Proof. intros m. by rewrite Integer_0, lookup_empty. Qed.

(** Two expressions in normal form with the same coefficients are the
    same expression. *)
Lemma expr_ext (a b : expr) :
  wf_expr a → wf_expr b → (∀ m, coef a m = coef b m) → a = b.
Proof.
  intros Ha Hb H. apply map_eq. intros m.
  specialize (Ha m). specialize (Hb m). specialize (H m). unfold coef in H.
  destruct (a !! m) as [x|], (b !! m) as [y|]; simpl in H; congruence.
Qed.

Lemma coef_big_add (n : nat) (f : nat → expr) (m : mono) :
  coef (big_add n f) m = big_sum n (λ j, coef (f j) m).
Proof.
  induction n as [|n IH]; [done|]. simpl. by rewrite coef_add, IH.
Qed.

Lemma wf_expr_big_add (n : nat) (f : nat → expr) :
  (∀ j, (j < n)%nat → wf_expr (f j)) → wf_expr (big_add n f).
Proof.
  induction n as [|n IH]; intros H; [apply wf_expr_0|].
  simpl. apply wf_expr_add; [apply IH; intros; apply H; lia|apply H; lia].
Qed.

Lemma big_sum_ext (n : nat) (f g : nat → Z) :
  (∀ j, (j < n)%nat → f j = g j) → big_sum n f = big_sum n g.
Proof.
  induction n as [|n IH]; intros H; [done|].
  simpl. rewrite IH, H by (intros; (apply H || idtac); lia). done.
Qed.

Lemma big_sum_plus (n : nat) (f g : nat → Z) :
  big_sum n (λ j, f j + g j) = big_sum n f + big_sum n g.
Proof. induction n as [|n IH]; [done|]. simpl. rewrite IH. lia. Qed.

Lemma big_sum_minus (n : nat) (f g : nat → Z) :
  big_sum n (λ j, f j - g j) = big_sum n f - big_sum n g.
Proof. induction n as [|n IH]; [done|]. simpl. rewrite IH. lia. Qed.

Lemma big_sum_0 (n : nat) : big_sum n (λ _, 0) = 0.
Proof. induction n as [|n IH]; [done|]. simpl. rewrite IH. lia. Qed.

Lemma big_sum_exchange (n k : nat) (g : nat → nat → Z) :
  big_sum n (λ i, big_sum k (λ j, g i j))
  = big_sum k (λ j, big_sum n (λ i, g i j)).
Proof.
  induction n as [|n IH]; simpl.
  - by rewrite big_sum_0.
  - by rewrite IH, big_sum_plus.
Qed.

(** Two sums whose summands agree except at [k] differ by the
    difference of the summands at [k]. *)
Lemma big_sum_differ_at (n k : nat) (f g : nat → Z) :
  (k < n)%nat → (∀ j, (j < n)%nat → j ≠ k → f j = g j) →
  big_sum n f - big_sum n g = f k - g k.
Proof.
  induction n as [|n IH]; intros Hk H; [lia|]. simpl.
  destruct (decide (k = n)) as [->|Hne].
  - rewrite (big_sum_ext n f g); [lia|]. intros j Hj. apply H; lia.
  - rewrite (H n) by lia.
    specialize (IH ltac:(lia) ltac:(intros; apply H; lia)). lia.
Qed.

Lemma sum_fmap_seq (n : nat) (f : nat → expr) :
  sum (f <$> seq 0 n) = big_add n f.
Proof.
  induction n as [|n IH]; [done|].
  rewrite seq_S, fmap_app. change (f <$> [(0 + n)%nat]) with [f n].
  by rewrite sum_snoc, IH.
Qed.

Lemma wf_expr_entry (A : Matrix) (i j : nat) :
  wf_Matrix A → Forall wf_expr (_mat A) →
  (i < rows A)%nat → (j < cols A)%nat → wf_expr (entry A i j).
Proof.
  intros Hwf Hall Hi Hj. unfold entry.
  destruct (lookup_lt_is_Some_2 (_mat A) (i * cols A + j)%nat) as [x Hx].
  { rewrite Hwf. by apply index_lt. }
  rewrite (list_lookup_total_correct _ _ _ Hx).
  rewrite Forall_forall in Hall. apply Hall. by eapply list_elem_of_lookup_2.
Qed.

Lemma pureTransitionToOde_entries (A : Matrix) :
  wf_Matrix A → rows A = cols A →
  pureTransitionToOde A
  = Ok ((λ i, inbound_minus_outbound A i) <$> seq 0 (rows A)).
Proof.
  intros Hwf Hsq. unfold pureTransitionToOde. rewrite decide_True by done.
  f_equal. unfold range. rewrite Nat.sub_0_r. rewrite <- list_fmap_compose.
  apply list_fmap_ext. intros k i Hk. apply lookup_seq in Hk as [-> Hk].
  simpl. unfold simplify, inbound_minus_outbound, col_slice, row_slice.
  rewrite sum_col_slice, sum_row_slice by (done || lia). done.
Qed.

Lemma wf_expr_inbound_minus_outbound (A : Matrix) (i : nat) :
  wf_Matrix A → Forall wf_expr (_mat A) → rows A = cols A →
  (i < rows A)%nat → wf_expr (inbound_minus_outbound A i).
Proof.
  intros Hwf Hall Hsq Hi. unfold inbound_minus_outbound.
  apply wf_expr_sub; apply wf_expr_big_add; intros j Hj;
    apply wf_expr_entry; (done || lia).
Qed.

(** X11.  The equations that [pureTransitionToOde] makes from a square
    matrix add up to zero: what leaves a state arrives at another. *)
Theorem pureTransitionToOde_conserves (A : Matrix) :
  wf_Matrix A → Forall wf_expr (_mat A) → rows A = cols A →
  ∃ v, pureTransitionToOde A = Ok v ∧ sum v = Integer 0.
Proof.
  intros Hwf Hall Hsq. eexists. split; [by apply pureTransitionToOde_entries|].
  rewrite sum_fmap_seq. apply expr_ext.
  - apply wf_expr_big_add. intros i Hi.
    by apply wf_expr_inbound_minus_outbound.
  - apply wf_expr_0.
  - intros m. rewrite coef_big_add, coef_0.
    rewrite (big_sum_ext _ _
               (λ i, big_sum (rows A) (λ j, coef (entry A j i) m)
                     - big_sum (rows A) (λ j, coef (entry A i j) m))).
    + rewrite big_sum_minus.
      rewrite (big_sum_exchange (rows A) (rows A)
                 (λ i j, coef (entry A j i) m)). lia.
    + intros i _. unfold inbound_minus_outbound.
      rewrite coef_sub, !coef_big_add, <- Hsq. done.
Qed.

(** X12.  [pureTransitionToOde] does not depend on the diagonal: two
    square matrices that differ on the diagonal only give the same
    equations. *)
Theorem pureTransitionToOde_diagonal (A B : Matrix) :
  wf_Matrix A → Forall wf_expr (_mat A) → rows A = cols A →
  shaped_like A B → Forall wf_expr (_mat B) →
  (∀ i j, (i < rows A)%nat → (j < rows A)%nat → i ≠ j →
          entry B i j = entry A i j) →
  pureTransitionToOde B = pureTransitionToOde A.
Proof.
  intros Hwf Hall Hsq (Hr & Hc & HwfB) HallB Hoff.
  rewrite !pureTransitionToOde_entries by (done || congruence).
  rewrite Hr. f_equal. apply list_fmap_ext.
  intros k i Hk. apply lookup_seq in Hk as [-> Hk]. simpl in *.
  apply expr_ext.
  - apply wf_expr_inbound_minus_outbound; (done || congruence || lia).
  - by apply wf_expr_inbound_minus_outbound.
  - intros m. unfold inbound_minus_outbound.
    rewrite !coef_sub, !coef_big_add, Hr, Hc, <- Hsq.
    pose proof (big_sum_differ_at (rows A) k
                  (λ j, coef (entry B j k) m) (λ j, coef (entry A j k) m) Hk)
      as H1.
    pose proof (big_sum_differ_at (rows A) k
                  (λ j, coef (entry B k j) m) (λ j, coef (entry A k j) m) Hk)
      as H2.
    simpl in H1, H2.
    assert (∀ j, (j < rows A)%nat → j ≠ k →
                 coef (entry B j k) m = coef (entry A j k) m) as E1
      by (intros j Hj Hne; by rewrite Hoff).
    assert (∀ j, (j < rows A)%nat → j ≠ k →
                 coef (entry B k j) m = coef (entry A k j) m) as E2
      by (intros j Hj Hne; by rewrite Hoff).
    specialize (H1 E1). specialize (H2 E2). lia.
Qed.

(** ** What [stripBDFromOde] takes away *)

Lemma singleton_map_inj {K A} `{Countable K} (k k' : K) (a a' : A) :
  ({[k := a]} : gmap K A) = {[k' := a']} → k = k' ∧ a = a'.
Proof.
  intros Heq. destruct (decide (k = k')) as [->|Hne].
  - split; [done|].
    apply (f_equal (λ e : gmap K A, e !! k')) in Heq.
    rewrite !lookup_singleton_eq in Heq. congruence.
  - apply (f_equal (λ e : gmap K A, e !! k)) in Heq.
    rewrite lookup_singleton_eq, lookup_singleton_ne in Heq by done. done.
Qed.

Lemma singleton_neq_Integer (m : mono) (c z : Z) :
  m ≠ ∅ → ({[m := c]} : expr) ≠ Integer z.
Proof.
  intros Hm Heq. unfold Integer in Heq. case_decide.
  - apply (f_equal (λ e : expr, e !! m)) in Heq.
    by rewrite lookup_singleton_eq, lookup_empty in Heq.
  - apply singleton_map_inj in Heq as [? _]. done.
Qed.

Lemma map_to_list_singleton_inv {K A} `{Countable K}
    (e : gmap K A) (k : K) (a : A) :
  map_to_list e = [(k, a)] → e = {[k := a]}.
Proof.
  intros He. rewrite <- (list_to_map_to_list e), He. simpl.
  by rewrite insert_empty.
Qed.

(** No expression is among its own arguments. *)
Lemma args_not_self (e : expr) : e ∉ args e.
Proof.
  unfold args, node_of.
  destruct (map_to_list e) as [|[m c] [|t2 ts]] eqn:He.
  - apply not_elem_of_nil.
  - apply map_to_list_singleton_inv in He as ->.
    assert (map_to_list m ≠ [] → m ≠ ∅) as Hne.
    { intros Hn ->. by rewrite map_to_list_empty in Hn. }
    destruct (map_to_list m) as [|[s p] [|sp2 k]] eqn:Hm.
    + apply not_elem_of_nil.
    + apply map_to_list_singleton_inv in Hm as ->.
      destruct (decide (c = 1)) as [->|Hc].
      * destruct (decide (p = 1%positive)) as [->|Hp]; [apply not_elem_of_nil|].
        intros [H|H]%elem_of_cons.
        -- unfold Symbol in H. apply singleton_map_inj in H as [H _].
           apply singleton_map_inj in H as [_ H]. done.
        -- apply list_elem_of_singleton in H.
           by apply singleton_neq_Integer in H; [|apply Hne].
      * intros [H|H]%elem_of_app.
        -- rewrite decide_False in H by done.
           apply list_elem_of_singleton in H.
           by apply singleton_neq_Integer in H; [|apply Hne].
        -- rewrite map_to_list_singleton in H.
           apply list_elem_of_singleton in H. unfold factor in H.
           apply singleton_map_inj in H as [_ H]. done.
    + intros [H|H]%elem_of_app.
      * case_decide; [by apply elem_of_nil in H|].
        apply list_elem_of_singleton in H.
        by apply singleton_neq_Integer in H; [|apply Hne].
      * apply list_elem_of_fmap in H as (sp & Heq & Hin).
        unfold factor in Heq. apply singleton_map_inj in Heq as [Heq _].
        rewrite Heq, map_to_list_singleton in Hm. done.
  - intros H. apply list_elem_of_fmap in H as ([m' c'] & Heq & _).
    simpl in Heq. rewrite Heq, map_to_list_singleton in He. done.
Qed.

Lemma stripped_fold (P : expr → bool) (pre l : list expr) (x : expr) :
  foldl (λ (c : expr) (jt : nat * expr),
           sub c (if (((P <$> (pre ++ l)) : list bool) !!! jt.1 : bool)
                  then jt.2 else Integer 0))
        x (zip (seq (length pre) (length l)) l)
  = foldl (λ c t, sub c (if P t then t else Integer 0)) x l.
Proof.
  revert pre x. induction l as [|a l IH]; intros pre x; [done|].
  cbn [length seq zip zip_with foldl fst snd].
  assert (((P <$> pre ++ a :: l) : list bool) !!! length pre = P a) as ->.
  { apply list_lookup_total_correct.
    rewrite list_lookup_fmap, lookup_app_r, Nat.sub_diag by lia. done. }
  specialize (IH (pre ++ [a]) (sub x (if P a then a else Integer 0))).
  rewrite length_app in IH. simpl in IH.
  rewrite Nat.add_1_r, <- (assoc_L (++)) in IH. exact IH.
Qed.

Lemma stripBDFromOde_entries dk se (fx bd : list expr) :
  stripBDFromOde dk se fx (Some bd)
  = Ok ((λ fxi,
           foldl (λ c t, sub c (if bool_decide (t ∈ args fxi)
                                then t else Integer 0)) fxi bd) <$> fx).
Proof.
  unfold stripBDFromOde. cbn [mbind result_bind]. f_equal.
  rewrite <- !list_fmap_compose. apply list_fmap_ext. intros _ fxi _.
  unfold compose, expand, simplify, enumerate.
  apply (stripped_fold (λ x, bool_decide (x ∈ args fxi)) [] bd fxi).
Qed.

Lemma foldl_sub_none (P : expr → bool) (bd : list expr) (x : expr) :
  (∀ t, t ∈ bd → P t = false) →
  foldl (λ c t, sub c (if P t then t else Integer 0)) x bd = x.
Proof.
  revert x. induction bd as [|t bd IH]; intros x H; [done|].
  simpl. rewrite (H t) by (by left). rewrite sub_0_r.
  apply IH. intros t' Ht'. apply H. by right.
Qed.

(** X13.  With a list of terms given, [stripBDFromOde] raises nothing
    and returns as many equations as it was given.  An equation that
    has none of the terms among its arguments is returned as it is;
    so is an equation that is one of the terms, since an expression is
    not among its own arguments: a birth or death term that makes up
    an equation alone stays. *)
Theorem stripBDFromOde_keeps dk se (fx bd : list expr) :
  ∃ v, stripBDFromOde dk se fx (Some bd) = Ok v ∧
       length v = length fx ∧
       (∀ i fxi, fx !! i = Some fxi →
                 (∀ t, t ∈ bd → t = fxi ∨ t ∉ args (expand fxi)) →
                 v !! i = Some fxi) ∧
       (∀ t, stripBDFromOde dk se [t] (Some [t]) = Ok [t]).
Proof.
  eexists. split; [apply stripBDFromOde_entries|]. split_and!.
  - by rewrite length_fmap.
  - intros i fxi Hi Hno. rewrite list_lookup_fmap, Hi. simpl. f_equal.
    apply foldl_sub_none. intros t Ht. apply bool_decide_eq_false.
    destruct (Hno t Ht) as [->|Hn]; [apply args_not_self|done].
  - intros t. rewrite stripBDFromOde_entries. simpl.
    rewrite bool_decide_eq_false_2 by apply args_not_self.
    by rewrite sub_0_r.
Qed.

(** X14.  From an equation that is one product, [stripBDFromOde]
    subtracts a listed term that is a factor of the product. *)
Theorem stripBDFromOde_subtracts_factor dk se
    (m : mono) (c : Z) (s : string) (p : positive) :
  is_Mul ({[m := c]} : expr) = true → m !! s = Some p →
  stripBDFromOde dk se [({[m := c]} : expr)] (Some [factor (s, p)])
  = Ok [sub {[m := c]} (factor (s, p))].
Proof.
  intros HM Hsp. rewrite stripBDFromOde_entries. simpl.
  rewrite bool_decide_eq_true_2; [done|].
  rewrite (args_Mul m c HM). apply elem_of_app. right.
  apply list_elem_of_fmap. exists (s, p). split; [done|].
  by apply elem_of_map_to_list.
Qed.

(** The coefficients after the loop of [stripBDFromOde]. *)
Lemma coef_foldl_sub (P : expr → bool) (bd : list expr) (x : expr) (m : mono) :
  coef (foldl (λ c t, sub c (if P t then t else Integer 0)) x bd) m
  = coef x m - foldr (λ t acc, (if P t then coef t m else 0) + acc) 0 bd.
Proof.
  revert x. induction bd as [|t bd IH]; intros x; simpl; [lia|].
  rewrite IH, coef_sub. destruct (P t); rewrite ?coef_0; lia.
Qed.

Lemma wf_expr_foldl_sub (P : expr → bool) (bd : list expr) (x : expr) :
  wf_expr x → (∀ t, t ∈ bd → P t = true → wf_expr t) →
  wf_expr (foldl (λ c t, sub c (if P t then t else Integer 0)) x bd).
Proof.
  revert x. induction bd as [|t bd IH]; intros x Hx H; [done|].
  simpl. apply IH.
  - apply wf_expr_sub; [done|]. destruct (P t) eqn:Ht.
    + apply H; [by left|done].
    + apply wf_expr_0.
  - intros t' Ht'. apply H. by right.
Qed.

Lemma coef_singleton (m m' : mono) (c : Z) :
  coef ({[m' := c]} : expr) m = if decide (m = m') then c else 0.
Proof.
  unfold coef. case_decide as Hm.
  - subst. by rewrite lookup_singleton_eq.
  - by rewrite lookup_singleton_ne.
Qed.

Lemma elem_of_args_Add (eq t : expr) :
  (1 < size eq)%nat →
  t ∈ args eq ↔ ∃ m c, t = {[m := c]} ∧ eq !! m = Some c.
Proof.
  intros Hs. rewrite (args_Add eq Hs). unfold additive_args, expand.
  rewrite list_elem_of_fmap. split.
  - intros ([m c] & -> & Hin). exists m, c. split; [done|].
    by apply elem_of_map_to_list in Hin.
  - intros (m & c & -> & Hm). exists (m, c). split; [done|].
    by apply elem_of_map_to_list.
Qed.

Lemma stripped_sum_coef (eq : expr) (bd : list expr) (m : mono) :
  (1 < size eq)%nat → NoDup bd →
  foldr (λ t acc, (if bool_decide (t ∈ args eq) then coef t m else 0) + acc)
        0 bd
  = match eq !! m with
    | Some c => if decide (({[m := c]} : expr) ∈ bd) then c else 0
    | None => 0
    end.
Proof.
  intros Hs. induction bd as [|t bd IH]; intros Hnd.
  - cbn [foldr]. destruct (eq !! m); [|done].
    by rewrite decide_False by apply not_elem_of_nil.
  - apply NoDup_cons in Hnd as [Hnt Hnd]. cbn [foldr]. rewrite (IH Hnd).
    clear IH.
    case_bool_decide as Ht.
    + apply (elem_of_args_Add eq t Hs) in Ht as (m' & c' & -> & Hm').
      rewrite coef_singleton. destruct (decide (m = m')) as [->|Hne].
      * rewrite Hm'. rewrite (decide_False (P := _ ∈ bd)) by done.
        rewrite decide_True by (by left). lia.
      * destruct (eq !! m) as [c|]; [|done].
        destruct (decide (({[m := c]} : expr) ∈ bd)) as [Hin|Hin].
        -- rewrite decide_True by (by right). lia.
        -- rewrite decide_False; [lia|].
           intros [Heq|?]%elem_of_cons; [|done].
           apply singleton_map_inj in Heq as [? _]. done.
    + destruct (eq !! m) as [c|] eqn:Hm; [|done].
      destruct (decide (({[m := c]} : expr) ∈ bd)) as [Hin|Hin].
      * rewrite decide_True by (by right). lia.
      * rewrite decide_False; [lia|].
        intros [Heq|?]%elem_of_cons; [|done]. apply Ht. rewrite <- Heq.
        apply (elem_of_args_Add eq _ Hs). by exists m, c.
Qed.

(** X15.  From an equation of several terms, [stripBDFromOde] with a
    list of terms without repetition takes away exactly the listed
    terms that are terms of the equation, and leaves every other term
    with its coefficient. *)
Theorem stripBDFromOde_strips_terms dk se
    (fx bd : list expr) (i : nat) (fxi : expr) :
  fx !! i = Some fxi → (1 < size fxi)%nat → wf_expr fxi → NoDup bd →
  ∃ v r, stripBDFromOde dk se fx (Some bd) = Ok v ∧ v !! i = Some r ∧
         ∀ m, r !! m = match fxi !! m with
                       | Some c =>
                           if decide (({[m := c]} : expr) ∈ bd)
                           then None else Some c
                       | None => None
                       end.
Proof.
  intros Hi Hs Hwf Hnd. eexists _, _. split; [apply stripBDFromOde_entries|].
  split; [by rewrite list_lookup_fmap, Hi|].
  intros m.
  set (r := foldl _ fxi bd).
  assert (wf_expr r) as Hr.
  { apply wf_expr_foldl_sub; [done|]. intros t _ Ht.
    apply bool_decide_eq_true in Ht.
    apply (elem_of_args_Add fxi t Hs) in Ht as (m' & c' & -> & Hm').
    intros k. destruct (decide (k = m')) as [->|Hne].
    - rewrite lookup_singleton_eq. intros [= ->]. by apply (Hwf m').
    - by rewrite lookup_singleton_ne. }
  assert (coef r m
          = match fxi !! m with
            | Some c => if decide (({[m := c]} : expr) ∈ bd) then 0 else c
            | None => 0
            end) as Hc.
  { unfold r.
    rewrite (coef_foldl_sub (λ t, bool_decide (t ∈ args fxi)) bd fxi m).
    rewrite (stripped_sum_coef fxi bd m Hs Hnd). unfold coef.
    destruct (fxi !! m) as [c|]; simpl; [|done]. case_decide; lia. }
  specialize (Hr m). specialize (Hwf m). unfold coef in Hc.
  destruct (r !! m) as [x|], (fxi !! m) as [c|]; simpl in Hc;
    try case_decide; subst; try done.
Qed.

(** ** The loops of the two passes *)

(** A loop along row [i], started at column [k] on the equations [l]:
    it does not raise and adds [t] to the entries [(i, j)] that the
    guard [Q] lets through. *)
Lemma row_loop (t : expr) (i : nat) (Q : nat → expr → bool)
    (l : list expr) (k : nat) (A : Matrix) :
  wf_Matrix A → (i < rows A)%nat → (k + length l ≤ cols A)%nat →
  ∃ A',
    for_each (λ (A : Matrix) (ja : nat * expr),
                let '(j, a) := ja in
                if Q j a then iadd A i j t else Ok A)
             A (zip (seq k (length l)) l) = Ok A' ∧
    shaped_like A A' ∧
    ∀ i' j, (j < cols A)%nat →
      entry A' i' j
      = if bool_decide (i' = i) && bool_decide (k ≤ j)%nat
           && from_option (Q j) false (l !! (j - k)%nat)
        then add (entry A i' j) t
        else entry A i' j.
Proof.
  revert k A. induction l as [|a l IH]; intros k A Hwf Ho Hk.
  - exists A. split; [done|]. split; [by apply shaped_like_refl|].
    intros i' j _. rewrite lookup_nil. simpl. by rewrite andb_false_r.
  - cbn [length seq zip zip_with for_each]. simpl in Hk.
    destruct (Q k a) eqn:Hc.
    + destruct (iadd_spec A i k t) as (A1 & -> & (Hr & Hcs & Hwf1) & He1);
        [done|done|lia|].
      cbn [mbind result_bind].
      destruct (IH (S k) A1) as (A' & -> & Hsh & He'); [done|lia|lia|].
      exists A'. split; [done|]. split.
      { eapply shaped_like_trans; [|exact Hsh]. done. }
      intros i' j Hj. rewrite He' by lia. rewrite He1 by done.
      destruct (decide (j = k)) as [->|Hjk].
      * rewrite Nat.sub_diag. cbn [lookup list_lookup from_option].
        rewrite (bool_decide_eq_false_2 (S k ≤ k)%nat) by lia.
        rewrite andb_false_r. cbn [andb].
        rewrite (bool_decide_eq_true_2 (k ≤ k)%nat) by lia. rewrite Hc.
        destruct (bool_decide (i' = i)) eqn:Hio; cbn [andb].
        -- apply bool_decide_eq_true in Hio as ->.
           by rewrite bool_decide_eq_true_2.
        -- apply bool_decide_eq_false in Hio.
           rewrite bool_decide_eq_false_2; [done|]. intros [? _]. done.
      * rewrite (bool_decide_eq_false_2 (i' = i ∧ j = k)) by (intros [_ ?]; done).
        destruct (decide (k < j)%nat) as [Hlt|Hge].
        -- replace (j - k)%nat with (S (j - S k)) by lia.
           cbn [lookup list_lookup].
           rewrite (bool_decide_eq_true_2 (S k ≤ j)%nat) by lia.
           rewrite (bool_decide_eq_true_2 (k ≤ j)%nat) by lia. done.
        -- rewrite (bool_decide_eq_false_2 (S k ≤ j)%nat) by lia.
           rewrite (bool_decide_eq_false_2 (k ≤ j)%nat) by lia.
           by rewrite !andb_false_r.
    + cbn [mbind result_bind].
      destruct (IH (S k) A) as (A' & -> & Hsh & He'); [done|done|lia|].
      exists A'. split; [done|]. split; [done|].
      intros i' j Hj. rewrite He' by lia.
      destruct (decide (j = k)) as [->|Hjk].
      * rewrite Nat.sub_diag. cbn [lookup list_lookup from_option].
        rewrite (bool_decide_eq_false_2 (S k ≤ k)%nat) by lia.
        rewrite andb_false_r. cbn [andb].
        destruct (bool_decide (i' = i)), (bool_decide (k ≤ k)%nat);
          cbn [andb]; try done.
        by rewrite Hc.
      * destruct (decide (k < j)%nat) as [Hlt|Hge].
        -- replace (j - k)%nat with (S (j - S k)) by lia.
           cbn [lookup list_lookup].
           rewrite (bool_decide_eq_true_2 (S k ≤ j)%nat) by lia.
           rewrite (bool_decide_eq_true_2 (k ≤ j)%nat) by lia. done.
        -- rewrite (bool_decide_eq_false_2 (S k ≤ j)%nat) by lia.
           rewrite (bool_decide_eq_false_2 (k ≤ j)%nat) by lia.
           by rewrite !andb_false_r.
Qed.

(** The flag [remain] of the inner loop of pass 2, apart from the
    matrix. *)
Lemma flag_loop (t : expr) (i : nat) (P : expr → bool)
    (L : list (nat * expr)) (A : Matrix) (b : bool) :
  for_each (λ (st : Matrix * bool) (ja : nat * expr),
              let '(j, aTo) := ja in
              if P aTo then A' ← iadd st.1 i j t; Ok (A', false) else Ok st)
           (A, b) L
  = A' ← for_each (λ (A : Matrix) (ja : nat * expr),
                     let '(j, a) := ja in
                     if P a then iadd A i j t else Ok A)
                  A L;
    Ok (A', b && negb (existsb (λ ja : nat * expr, P ja.2) L)).
Proof.
  revert A b. induction L as [|[j a] L IH]; intros A b.
  - simpl. by rewrite andb_true_r.
  - cbn [for_each existsb snd]. destruct (P a) eqn:Ha.
    + cbn [fst]. destruct (iadd A i j t) as [A1|e]; [|done].
      cbn [mbind result_bind]. rewrite IH. cbn [orb negb].
      by rewrite andb_false_r.
    + cbn [mbind result_bind orb]. apply IH.
Qed.

Lemma existsb_zip_snd {A} (P : A → bool) (l : list A) (k : nat) :
  existsb (λ ja : nat * A, P ja.2) (zip (seq k (length l)) l) = existsb P l.
Proof.
  revert k. induction l as [|a l IH]; intros k; [done|].
  simpl. by rewrite IH.
Qed.

Lemma existsb_enumerate {A} (P : A → bool) (l : list A) :
  existsb (λ ja : nat * A, P ja.2) (enumerate l) = existsb P l.
Proof. apply existsb_zip_snd. Qed.

(** The outer loop of one turn of pass 2, started at row [k] on the
    equations [l]. *)
Lemma pair_loop (fx : list expr) (t1 t2 : expr)
    (l : list expr) (k : nat) (A : Matrix) (b : bool) :
  wf_Matrix A → (k + length l ≤ rows A)%nat → (length fx ≤ cols A)%nat →
  ∃ A',
    for_each (λ (st : Matrix * bool) (ia : nat * expr),
                let '(i, aFrom) := ia in
                if _hasExpression aFrom t2
                then for_each (λ (st : Matrix * bool) (ja : nat * expr),
                                 let '(j, aTo) := ja in
                                 if _hasExpression aTo t1
                                 then A' ← iadd st.1 i j t1; Ok (A', false)
                                 else Ok st)
                              st (enumerate fx)
                else Ok st)
             (A, b) (zip (seq k (length l)) l)
    = Ok (A', b && negb (existsb (λ a, _hasExpression a t2) l
                         && existsb (λ a, _hasExpression a t1) fx)) ∧
    shaped_like A A' ∧
    ∀ i j, (j < cols A)%nat →
      entry A' i j
      = if bool_decide (k ≤ i)%nat
           && from_option (λ a, _hasExpression a t2) false (l !! (i - k)%nat)
           && from_option (λ a, _hasExpression a t1) false (fx !! j)
        then add (entry A i j) t1
        else entry A i j.
Proof.
  revert k A b. induction l as [|a l IH]; intros k A b Hwf Hk Hc.
  - exists A. split; [by rewrite andb_true_r|].
    split; [by apply shaped_like_refl|].
    intros i j _. rewrite lookup_nil. simpl. by rewrite andb_false_r.
  - cbn [length seq zip zip_with for_each existsb]. simpl in Hk.
    destruct (_hasExpression a t2) eqn:Ha.
    + rewrite (flag_loop t1 k (λ x, _hasExpression x t1) (enumerate fx)).
      destruct (row_loop t1 k (λ _ x, _hasExpression x t1) fx 0 A)
        as (A1 & HA1 & (Hr1 & Hc1 & Hwf1) & He1); [done|lia|lia|].
      rewrite (existsb_enumerate (λ x, _hasExpression x t1) fx).
      change (zip (seq 0 (length fx)) fx) with (enumerate fx) in HA1.
      cbv beta in HA1 |- *. rewrite HA1.
      cbn [mbind result_bind].
      destruct (IH (S k) A1
                  (b && negb (existsb (λ x, _hasExpression x t1) fx)))
        as (A' & -> & Hsh & He'); [done|lia|lia|].
      exists A'. split.
      { f_equal. f_equal. cbn [orb andb].
        destruct b, (existsb (λ x, _hasExpression x t1) fx),
          (existsb (λ x, _hasExpression x t2) l); done. }
      split.
      { eapply shaped_like_trans; [|exact Hsh]. done. }
      intros i j Hj. rewrite He' by lia. rewrite He1 by done.
      rewrite Nat.sub_0_r.
      rewrite (bool_decide_eq_true_2 (0 ≤ j)%nat) by lia.
      rewrite andb_true_r.
      destruct (decide (i = k)) as [->|Hik].
      * rewrite Nat.sub_diag. cbn [lookup list_lookup from_option].
        rewrite (bool_decide_eq_false_2 (S k ≤ k)%nat) by lia.
        rewrite (bool_decide_eq_true_2 (k = k)) by done.
        rewrite (bool_decide_eq_true_2 (k ≤ k)%nat) by lia.
        rewrite Ha. done.
      * rewrite (bool_decide_eq_false_2 (i = k)) by done. cbn [andb].
        destruct (decide (k < i)%nat) as [Hlt|Hge].
        -- replace (i - k)%nat with (S (i - S k)) by lia.
           cbn [lookup list_lookup].
           rewrite (bool_decide_eq_true_2 (S k ≤ i)%nat) by lia.
           rewrite (bool_decide_eq_true_2 (k ≤ i)%nat) by lia. done.
        -- rewrite (bool_decide_eq_false_2 (S k ≤ i)%nat) by lia.
           rewrite (bool_decide_eq_false_2 (k ≤ i)%nat) by lia. done.
    + cbn [mbind result_bind orb].
      destruct (IH (S k) A b) as (A' & -> & Hsh & He'); [done|lia|lia|].
      exists A'. split; [done|]. split; [done|].
      intros i j Hj. rewrite He' by lia.
      destruct (decide (i = k)) as [->|Hik].
      * rewrite Nat.sub_diag. cbn [lookup list_lookup from_option].
        rewrite (bool_decide_eq_false_2 (S k ≤ k)%nat) by lia.
        rewrite Ha. by rewrite andb_false_r.
      * destruct (decide (k < i)%nat) as [Hlt|Hge].
        -- replace (i - k)%nat with (S (i - S k)) by lia.
           cbn [lookup list_lookup].
           rewrite (bool_decide_eq_true_2 (S k ≤ i)%nat) by lia.
           rewrite (bool_decide_eq_true_2 (k ≤ i)%nat) by lia. done.
        -- rewrite (bool_decide_eq_false_2 (S k ≤ i)%nat) by lia.
           rewrite (bool_decide_eq_false_2 (k ≤ i)%nat) by lia. done.
Qed.

Lemma pair_run (fx : list expr) (t1 t2 : expr) (A : Matrix) :
  wf_Matrix A → (length fx ≤ rows A)%nat → (length fx ≤ cols A)%nat →
  ∃ A',
    _odeToPureTransition_pair fx t1 t2 A
    = Ok (A', negb (existsb (λ a, _hasExpression a t2) fx
                    && existsb (λ a, _hasExpression a t1) fx)) ∧
    shaped_like A A' ∧
    ∀ i j ai aj, fx !! i = Some ai → fx !! j = Some aj →
      entry A' i j
      = if _hasExpression ai t2 && _hasExpression aj t1
        then add (entry A i j) t1
        else entry A i j.
Proof.
  intros Hwf Hr Hc. unfold _odeToPureTransition_pair.
  destruct (pair_loop fx t1 t2 fx 0 A true) as (A' & HA & Hsh & He);
    [done|lia|done|].
  change (zip (seq 0 (length fx)) fx) with (enumerate fx) in HA.
  exists A'. split; [exact HA|]. split; [done|].
  intros i j ai aj Hi Hj. rewrite He.
  - rewrite Nat.sub_0_r, Hi, Hj.
    rewrite (bool_decide_eq_true_2 (0 ≤ i)%nat) by lia. done.
  - apply lookup_lt_Some in Hj. lia.
Qed.

Lemma unplaced_iff (fx : list expr) (t1 t2 : expr) :
  negb (existsb (λ a, _hasExpression a t2) fx
        && existsb (λ a, _hasExpression a t1) fx) = true
  ↔ ¬ (Exists (λ a, _hasExpression a t2 = true) fx ∧
       Exists (λ a, _hasExpression a t1 = true) fx).
Proof.
  rewrite negb_true_iff, andb_false_iff, !Exists_exists. split.
  - intros [H|H] [(a & Ha & Hx) (a' & Ha' & Hx')].
    + apply not_true_iff_false in H. apply H. apply existsb_exists.
      exists a. split; [by apply list_elem_of_In|done].
    + apply not_true_iff_false in H. apply H. apply existsb_exists.
      exists a'. split; [by apply list_elem_of_In|done].
  - intros H.
    destruct (existsb (λ a, _hasExpression a t2) fx) eqn:E2; [|by left].
    destruct (existsb (λ a, _hasExpression a t1) fx) eqn:E1; [|by right].
    exfalso. apply H.
    apply existsb_exists in E2 as (a & Ha & Hx).
    apply existsb_exists in E1 as (a' & Ha' & Hx').
    split; [exists a|exists a']; (split; [by apply list_elem_of_In|done]).
Qed.

(** X16.  One turn of pass 2 on the pair [(t1, t2)] does not raise on
    a matrix with a row and a column for every equation.  It adds
    [t1] to [A[i,j]] for every equation [i] that has [t2] and every
    equation [j] that has [t1], the cells with [i = j] among them, and
    changes no other cell of the equations; the flag [remain] stays
    up exactly when no cell was written. *)
Theorem _odeToPureTransition_pair_cells
    (fx : list expr) (t1 t2 : expr) (A : Matrix) :
  wf_Matrix A → (length fx ≤ rows A)%nat → (length fx ≤ cols A)%nat →
  ∃ A' remain,
    _odeToPureTransition_pair fx t1 t2 A = Ok (A', remain) ∧
    shaped_like A A' ∧
    (∀ i j ai aj, fx !! i = Some ai → fx !! j = Some aj →
       entry A' i j
       = if _hasExpression ai t2 && _hasExpression aj t1
         then add (entry A i j) t1
         else entry A i j) ∧
    (remain = true ↔
     ¬ (Exists (λ a, _hasExpression a t2 = true) fx ∧
        Exists (λ a, _hasExpression a t1 = true) fx)).
Proof.
  intros Hwf Hr Hc.
  destruct (pair_run fx t1 t2 A Hwf Hr Hc) as (A' & Hrun & Hsh & He).
  eexists _, _. split; [exact Hrun|]. split; [done|]. split; [done|].
  apply unplaced_iff.
Qed.

Lemma pass2_loop (fx : list expr) (tl : list (expr * expr))
    (A : Matrix) (rem : list (expr * expr)) :
  wf_Matrix A → (length fx ≤ rows A)%nat → (length fx ≤ cols A)%nat →
  ∃ A',
    for_each (λ (st : Matrix * list (expr * expr)) (tt : expr * expr),
                let '(A, remainTransition) := st in
                let '(t1, t2) := tt in
                r ← _odeToPureTransition_pair fx t1 t2 A;
                let '(A, remain) := (r : Matrix * bool) in
                if remain then Ok (A, remainTransition ++ [(t1, t2)])
                else Ok (A, remainTransition))
             (A, rem) tl
    = Ok (A', rem ++ filter (λ tt : expr * expr,
                    ¬ (Exists (λ a, _hasExpression a tt.2 = true) fx ∧
                       Exists (λ a, _hasExpression a tt.1 = true) fx)) tl) ∧
    shaped_like A A'.
Proof.
  revert A rem. induction tl as [|[t1 t2] tl IH]; intros A rem Hwf Hr Hc.
  - exists A. simpl. rewrite app_nil_r. split; [done|].
    by apply shaped_like_refl.
  - cbn [for_each].
    destruct (pair_run fx t1 t2 A Hwf Hr Hc)
      as (A1 & -> & (Hr1 & Hc1 & Hwf1) & _).
    cbn [mbind result_bind]. rewrite filter_cons. cbn [fst snd].
    pose proof (unplaced_iff fx t1 t2) as Hiff.
    destruct (negb _) eqn:Hflag; cbv beta iota; cbn [mbind result_bind].
    + rewrite decide_True by (by apply Hiff).
      destruct (IH A1 (rem ++ [(t1, t2)])) as (A' & -> & Hsh);
        [done|lia|lia|].
      exists A'. rewrite <- (assoc_L (++)). split; [done|].
      eapply shaped_like_trans; [|exact Hsh]. done.
    + rewrite decide_False by (intros H; apply Hiff in H; done).
      destruct (IH A1 rem) as (A' & -> & Hsh); [done|lia|lia|].
      exists A'. split; [done|].
      eapply shaped_like_trans; [|exact Hsh]. done.
Qed.

(** X17.  Pass 2 does not raise on a matrix with a row and a column
    for every equation, and keeps its shape.  The pairs it returns are
    the pairs of its list, in the order of the list, for which no
    equation has the second term or no equation has the first: the
    pairs that wrote no cell. *)
Theorem _odeToPureTransition_remainder dk se
    (fx : list expr) (tl : list (expr * expr)) (A : Matrix) :
  wf_Matrix A → (length fx ≤ rows A)%nat → (length fx ≤ cols A)%nat →
  ∃ A',
    _odeToPureTransition dk se fx (Some tl) (Some A)
    = Ok (A', filter (λ tt : expr * expr,
                ¬ (Exists (λ a, _hasExpression a tt.2 = true) fx ∧
                   Exists (λ a, _hasExpression a tt.1 = true) fx)) tl) ∧
    shaped_like A A'.
Proof.
  intros Hwf Hr Hc. unfold _odeToPureTransition.
  destruct (pass2_loop fx tl A [] Hwf Hr Hc) as (A' & -> & Hsh).
  by exists A'.
Qed.

Lemma pass1_loop (fx : list expr) (states : list string)
    (tl : list (expr * expr)) (k : nat) (A : Matrix)
    (rem : list (expr * expr)) :
  wf_Matrix A → (length states ≤ rows A)%nat → (length fx ≤ cols A)%nat →
  ∃ A',
    for_each (λ (st : Matrix * list (expr * expr)) (kt : nat * (expr * expr)),
                let '(A, remainTermList) := st in
                let '(k, transitionTuple) := kt in
                let '(t1, t2) := transitionTuple in
                let possibleOrigin := possibleOrigin_of states t1 in
                if decide (length possibleOrigin = 1%nat)
                then
                  A ← for_each (λ (A : Matrix) (jf : nat * expr),
                                  let '(j, fxj) := jf in
                                  if bool_decide (possibleOrigin !!! 0%nat ≠ j)
                                     && _hasExpression fxj t1
                                  then iadd A (possibleOrigin !!! 0%nat) j t1
                                  else Ok A)
                               A (enumerate fx);
                  Ok (A, remainTermList)
                else Ok (A, remainTermList ++ [transitionTuple]))
             (A, rem) (zip (seq k (length tl)) tl)
    = Ok (A', rem ++ filter (λ tt : expr * expr,
                    length (possibleOrigin_of states tt.1) ≠ 1%nat) tl) ∧
    shaped_like A A' ∧
    ∀ i j, (j < cols A)%nat →
           i = j ∨ (∀ tt, tt ∈ tl → possibleOrigin_of states tt.1 ≠ [i]) →
           entry A' i j = entry A i j.
Proof.
  revert k A rem. induction tl as [|[t1 t2] tl IH]; intros k A rem Hwf Hr Hc.
  - exists A. simpl. rewrite app_nil_r. split; [done|].
    split; [by apply shaped_like_refl|done].
  - cbn [length seq zip zip_with for_each]. rewrite filter_cons. cbn [fst].
    cbv zeta in IH |- *.
    destruct (possibleOrigin_of states t1) as [|o [|o' os]] eqn:Hos.
    + rewrite !decide_False by done. rewrite decide_True by done.
      cbn [mbind result_bind].
      destruct (IH (S k) A (rem ++ [(t1, t2)])) as (A' & -> & Hsh & He);
        [done..|].
      exists A'. rewrite <- (assoc_L (++)). split; [done|]. split; [done|].
      intros i j Hj Hij. apply He; [done|].
      destruct Hij as [?|Hij]; [by left|right].
      intros tt Htt. apply Hij. by right.
    + rewrite (decide_True (P := length [o] = 1%nat)) by done.
      rewrite (decide_False (P := length [o] ≠ 1%nat)) by (intros H; by apply H).
      change ([o] !!! 0%nat) with o.
      assert (o < rows A)%nat as Hlt.
      { eapply Nat.lt_le_trans; [|exact Hr].
        apply (possibleOrigin_of_lt states t1). rewrite Hos. by left. }
      destruct (origin_loop t1 o fx 0 A) as (A1 & HA1 & (Hr1 & Hc1 & Hwf1) & He1);
        [done|done|lia|].
      unfold enumerate. rewrite HA1. cbn [mbind result_bind].
      change (zip (seq 0 (length fx)) fx) with (enumerate fx).
      destruct (IH (S k) A1 rem) as (A' & -> & Hsh & He); [done|lia|lia|].
      exists A'. split; [done|]. split.
      { eapply shaped_like_trans; [|exact Hsh]. done. }
      intros i j Hj Hij. rewrite He; [|lia|].
      * rewrite He1 by done.
        destruct (bool_decide (i = o)) eqn:Hio; [|done].
        apply bool_decide_eq_true in Hio as ->.
        destruct Hij as [->|Hij].
        -- rewrite (bool_decide_eq_false_2 (j ≠ j)) by (intros H; by apply H).
           by rewrite andb_false_r.
        -- exfalso. apply (Hij (t1, t2)); [by left|done].
      * destruct Hij as [?|Hij]; [by left|right].
        intros tt Htt. apply Hij. by right.
    + rewrite (decide_False (P := length (o :: o' :: os) = 1%nat))
        by (simpl; lia).
      rewrite decide_True by (simpl; lia).
      cbn [mbind result_bind].
      destruct (IH (S k) A (rem ++ [(t1, t2)])) as (A' & -> & Hsh & He);
        [done..|].
      exists A'. rewrite <- (assoc_L (++)). split; [done|]. split; [done|].
      intros i j Hj Hij. apply He; [done|].
      destruct Hij as [?|Hij]; [by left|right].
      intros tt Htt. apply Hij. by right.
Qed.

(** X18.  Pass 1 does not raise on a matrix with a row for every state
    and a column for every equation.  It hands on to pass 2 the pairs
    whose first term names no state or several, in the order of the
    list; it writes neither to the diagonal nor to the row of a state
    that is the single origin of no pair. *)
Theorem _singleOriginTransition_remainder
    (fx : list expr) (tl : list (expr * expr)) (states : list string)
    (A : Matrix) :
  wf_Matrix A → (length states ≤ rows A)%nat → (length fx ≤ cols A)%nat →
  ∃ A',
    _singleOriginTransition fx tl states (Some A)
    = Ok (A', filter (λ tt : expr * expr,
                length (possibleOrigin_of states tt.1) ≠ 1%nat) tl) ∧
    shaped_like A A' ∧
    (∀ i, (i < cols A)%nat → entry A' i i = entry A i i) ∧
    (∀ i j, (j < cols A)%nat →
            (∀ tt, tt ∈ tl → possibleOrigin_of states tt.1 ≠ [i]) →
            entry A' i j = entry A i j).
Proof.
  intros Hwf Hr Hc. unfold _singleOriginTransition.
  destruct (pass1_loop fx states tl 0 A [] Hwf Hr Hc) as (A' & HA & Hsh & He).
  change (zip (seq 0 (length tl)) tl) with (enumerate tl) in HA.
  exists A'. split; [exact HA|]. split; [done|]. split.
  - intros i Hi. apply He; [done|by left].
  - intros i j Hj Hno. apply He; [done|by right].
Qed.

Lemma origin_loop_raises (t : expr) (o : nat) (l : list expr) (k : nat)
    (A : Matrix) :
  (rows A ≤ o)%nat → (k + length l ≤ o)%nat →
  Exists (λ a, _hasExpression a t = true) l →
  for_each (λ (A : Matrix) (jf : nat * expr),
              let '(j, fxj) := jf in
              if bool_decide (o ≠ j) && _hasExpression fxj t
              then iadd A o j t
              else Ok A)
           A (zip (seq k (length l)) l) = Raise IndexError.
Proof.
  intros Ho. revert k. induction l as [|a l IH]; intros k Hk Hex.
  - by apply Exists_nil in Hex.
  - cbn [length seq zip zip_with for_each]. simpl in Hk.
    rewrite (bool_decide_eq_true_2 (o ≠ k)) by lia. cbn [andb].
    destruct (_hasExpression a t) eqn:Ha.
    + unfold iadd, getitem. rewrite decide_False by lia. done.
    + cbn [mbind result_bind]. apply IH; [lia|].
      apply Exists_cons in Hex as [Hex|Hex]; [congruence|done].
Qed.

(** X19.  Pass 1 raises [IndexError] when the single state that the
    first term of a pair names stands at a position after the last
    equation and some equation has the term: the row of that state is
    outside the matrix that pass 1 makes. *)
Theorem _singleOriginTransition_raises
    (fx : list expr) (states : list string) (t1 t2 : expr) (o : nat) :
  possibleOrigin_of states t1 = [o] → (length fx ≤ o)%nat →
  Exists (λ a, _hasExpression a t1 = true) fx →
  _singleOriginTransition fx [(t1, t2)] states None = Raise IndexError.
Proof.
  intros Hos Ho Hex. unfold _singleOriginTransition.
  cbn [enumerate length seq zip zip_with for_each]. rewrite Hos.
  rewrite decide_True by done. change ([o] !!! 0%nat) with o.
  unfold enumerate.
  rewrite (origin_loop_raises t1 o fx 0 (zeros (length fx) (length fx)));
    [done|simpl; lia|lia|done].
Qed.

(** X20.  With no equation at all, [getUnmatchedExpressionVector]
    reduces an empty sequence, and the functions that start with it
    raise [TypeError]; pass 2 with its defaults does not go through
    it, and returns the empty matrix. *)
Theorem empty_ode dk se (states : list string) :
  odeToPureTransition dk se [] states = Raise TypeError ∧
  stripBDFromOde dk se [] None = Raise TypeError ∧
  (ElementsOrder se →
   _odeToPureTransition dk se [] None None = Ok (zeros 0 0, [])).
Proof.
  split; [done|]. split; [done|].
  intros Hse. unfold _odeToPureTransition, getMatchingExpressionVector.
  cbn [foldl]. change (_findMatchingExpression []) with ([] : list expr).
  change (set_of []) with ([] : list expr).
  pose proof (Hse []) as Hp. apply Permutation_nil_r in Hp. rewrite Hp.
  done.
Qed.

Lemma is_Mul_inv (e : expr) :
  is_Mul e = true → ∃ m c, e = {[m := c]}.
Proof.
  unfold is_Mul, node_of.
  destruct (map_to_list e) as [|[m c] [|t2 ts]] eqn:He; [done| |done].
  intros _. exists m, c. by apply map_to_list_singleton_inv.
Qed.

(** X21.  [_expressionLength] is zero for everything but a product,
    and at least two for a product: it is never one. *)
Theorem _expressionLength_zero_or_two (e : expr) :
  (_expressionLength e = 0%nat ↔ is_Mul e = false) ∧
  (is_Mul e = true → (2 ≤ _expressionLength e)%nat).
Proof.
  assert (is_Mul e = true → (2 ≤ length (args e))%nat) as H2.
  { intros HM. destruct (is_Mul_inv e HM) as (m & c & ->).
    rewrite (args_Mul m c HM). rewrite length_app, length_fmap.
    unfold is_Mul, node_of in HM. rewrite map_to_list_singleton in HM.
    destruct (map_to_list m) as [|[s p] [|? ?]]; [done| |simpl; lia].
    destruct (decide (c = 1)); [|simpl; lia].
    by destruct (decide (p = 1%positive)). }
  unfold _expressionLength. destruct (is_Mul e) eqn:HM.
  - specialize (H2 eq_refl). split; [|done]. split; [lia|done].
  - split; [|done]. by destruct (is_Pow e).
Qed.

(** X22.  The factors of a product are not products, so the recursion
    of [_getLeaf] and of [_getExpression] ends within two calls:
    deeper calls change nothing. *)
Theorem recursion_two_deep (n : nat) (e : expr) (d : dict) :
  (is_Mul e = true → ∀ a, a ∈ args e → _expressionLength a = 0%nat) ∧
  _getLeaf (2 + n) e d = _getLeaf 2 e d ∧
  _getExpression (2 + n) e d = _getExpression 2 e d.
Proof.
  split_and!.
  - intros HM a Ha. apply _expressionLength_not_Mul.
    by eapply args_Mul_not_Mul.
  - apply _getLeaf_fuel.
  - apply _getExpression_fuel.
Qed.

(** ** The further properties at concrete inputs *)

Lemma wf_expr_map_Forall (e : expr) :
  map_Forall (λ _ c, c ≠ 0) e → wf_expr e.
Proof. intros H m Hm. by apply (H m 0). Qed.

Lemma Forall_wf_expr (l : list expr) :
  Forall (λ e : expr, map_Forall (λ _ c, c ≠ 0) e) l → Forall wf_expr l.
Proof.
  intros H. eapply Forall_impl; [exact H|]. intros e.
  apply wf_expr_map_Forall.
Qed.

Lemma getExpressions_terms_witness :
  (existsb is_Mul (args (expand (sub bSI gI))) = true →
   getExpressions insertion_keys (sub bSI gI) ≡ₚ additive_args (sub bSI gI)) ∧
  (existsb is_Mul (args (expand (sub bSI gI))) = false →
   getExpressions insertion_keys (sub bSI gI) = [sub bSI gI]).
Proof.
  apply (getExpressions_terms insertion_keys (sub bSI gI)).
  apply insertion_keys_order.
Defined.

Lemma getUnmatchedExpressionVector_unmatched_witness :
  (fx_B = [] →
   getUnmatchedExpressionVector insertion_keys first_elements fx_B
   = Raise TypeError) ∧
  (fx_B ≠ [] →
   ∃ out tl,
     getUnmatchedExpressionVector insertion_keys first_elements fx_B
     = Ok (out, tl) ∧
     NoDup out ∧
     (∀ x, x ∈ out ↔
        x ∈ concat (getExpressions insertion_keys <$> fx_B) ∧
        ¬ ∃ i j, i ≠ j ∧
            concat (getExpressions insertion_keys <$> fx_B) !! i = Some x ∧
            concat (getExpressions insertion_keys <$> fx_B) !! j
            = Some (neg x)) ∧
     (∀ p q, (p, q) ∈ tl →
        add p q = Integer 0 ∧
        p ∈ concat (getExpressions insertion_keys <$> fx_B) ∧
        q ∈ concat (getExpressions insertion_keys <$> fx_B))).
Proof.
  apply (getUnmatchedExpressionVector_unmatched
           insertion_keys first_elements fx_B).
  apply first_elements_order.
Defined.

Lemma getMatchingExpressionVector_cancelling_witness :
  (∀ p q, (p, q) ∈ getMatchingExpressionVector insertion_keys first_elements fx_A →
     add p q = Integer 0 ∧
     p ∈ concat (getExpressions insertion_keys <$> fx_A) ∧
     q ∈ concat (getExpressions insertion_keys <$> fx_A)) ∧
  (fx_A = [] →
   getMatchingExpressionVector insertion_keys first_elements fx_A = []).
Proof.
  apply (getMatchingExpressionVector_cancelling
           insertion_keys first_elements fx_A).
  apply first_elements_order.
Defined.

Lemma getLeafs_args_witness :
  (beta ∈ getLeafs insertion_keys (sub bSI gI) ↔
   ∃ a, a ∈ args (expand (sub bSI gI)) ∧
        if is_Mul a then beta ∈ args a else beta = a) ∧
  (∀ z, getLeafs insertion_keys (Integer z) = []) ∧
  (∀ s, getLeafs insertion_keys (Symbol s) = []) ∧
  (∀ s p, p ≠ 1%positive →
     getLeafs insertion_keys (factor (s, p))
     ≡ₚ [Symbol s; Integer (Z.pos p)]).
Proof.
  apply (getLeafs_args insertion_keys (sub bSI gI) beta).
  apply insertion_keys_order.
Defined.

Lemma matched_tuple_list_order_witness :
  ¬ has_literal_minus_one insertion_keys
      ({[ ({["S" := 1%positive]} : mono) := - 2 ]} : expr) ∧
  ¬ has_literal_minus_one insertion_keys
      ({[ ({["S" := 1%positive]} : mono) := 2 ]} : expr) ∧
  _transitionListToMatchedTuple insertion_keys
    [({[ ({["S" := 1%positive]} : mono) := - 2 ]} : expr);
     {[ ({["S" := 1%positive]} : mono) := 2 ]}]
  = [(({[ ({["S" := 1%positive]} : mono) := - 2 ]} : expr),
      ({[ ({["S" := 1%positive]} : mono) := 2 ]} : expr))].
Proof.
  apply (matched_tuple_list_order insertion_keys {["S" := 1%positive]} 2).
  - apply insertion_keys_order.
  - lia.
  - lia.
  - lia.
Defined.

Lemma _hasExpression_sum_witness :
  _hasExpression (sub bSI gI) bSI = true
  ↔ bSI = sub bSI gI ∨ ∃ m c, bSI = {[m := c]} ∧ sub bSI gI !! m = Some c.
Proof.
  apply (_hasExpression_sum (sub bSI gI) bSI). by_computation.
Defined.

Lemma _hasExpression_factors_witness :
  (-1 ≠ 1 →
   _hasExpression ({[ ({["S" := 1%positive]} : mono) := -1 ]} : expr)
     (Integer (-1)) = true) ∧
  (∀ s p, ({["S" := 1%positive]} : mono) !! s = Some p →
          _hasExpression ({[ ({["S" := 1%positive]} : mono) := -1 ]} : expr)
            (factor (s, p)) = true).
Proof.
  apply (_hasExpression_factors {["S" := 1%positive]} (-1)). by_computation.
Defined.

Lemma pureTransitionToOde_conserves_witness :
  ∃ v, pureTransitionToOde A_A = Ok v ∧ sum v = Integer 0.
Proof.
  apply (pureTransitionToOde_conserves A_A).
  - reflexivity.
  - apply Forall_wf_expr. by_computation.
  - reflexivity.
Defined.

Lemma pureTransitionToOde_diagonal_witness :
  pureTransitionToOde
    (mkMatrix 3 3 [Integer 0; vS;        bS;
                   Integer 0; Integer 0; Integer 0;
                   Integer 0; Integer 0; Integer 0])
  = pureTransitionToOde A_two_exits.
Proof.
  apply (pureTransitionToOde_diagonal A_two_exits).
  - reflexivity.
  - apply Forall_wf_expr. by_computation.
  - reflexivity.
  - split_and!; reflexivity.
  - apply Forall_wf_expr. by_computation.
  - intros i j Hi Hj Hne. change (rows A_two_exits) with 3%nat in Hi, Hj.
    destruct i as [|[|[|i]]]; [| | |exfalso; lia];
      (destruct j as [|[|[|j]]]; [| | |exfalso; lia]);
      first [exfalso; lia | by_computation].
Defined.

Lemma stripBDFromOde_subtracts_factor_witness :
  stripBDFromOde insertion_keys first_elements
    [({[ ({["S" := 1%positive]} : mono) := -1 ]} : expr)]
    (Some [factor ("S", 1%positive)])
  = Ok [sub {[ ({["S" := 1%positive]} : mono) := -1 ]}
            (factor ("S", 1%positive))].
Proof.
  apply (stripBDFromOde_subtracts_factor insertion_keys first_elements
           {["S" := 1%positive]} (-1) "S" 1%positive).
  - by_computation.
  - apply lookup_singleton_eq.
Defined.

Lemma stripBDFromOde_strips_terms_witness :
  ∃ v r, stripBDFromOde insertion_keys first_elements fx_B (Some [mu])
         = Ok v ∧
         v !! 0%nat = Some r ∧
         ∀ m, r !! m = match sub mu bSI !! m with
                       | Some c =>
                           if decide (({[m := c]} : expr) ∈ [mu])
                           then None else Some c
                       | None => None
                       end.
Proof.
  apply (stripBDFromOde_strips_terms insertion_keys first_elements
           fx_B [mu] 0 (sub mu bSI)).
  - reflexivity.
  - by_computation.
  - apply wf_expr_map_Forall. by_computation.
  - apply NoDup_singleton.
Defined.

Lemma _odeToPureTransition_pair_cells_witness :
  ∃ A' remain,
    _odeToPureTransition_pair fx_A bSI (neg bSI) (zeros 3 3)
    = Ok (A', remain) ∧
    shaped_like (zeros 3 3) A' ∧
    (∀ i j ai aj, fx_A !! i = Some ai → fx_A !! j = Some aj →
       entry A' i j
       = if _hasExpression ai (neg bSI) && _hasExpression aj bSI
         then add (entry (zeros 3 3) i j) bSI
         else entry (zeros 3 3) i j) ∧
    (remain = true ↔
     ¬ (Exists (λ a, _hasExpression a (neg bSI) = true) fx_A ∧
        Exists (λ a, _hasExpression a bSI = true) fx_A)).
Proof.
  apply (_odeToPureTransition_pair_cells fx_A bSI (neg bSI) (zeros 3 3)).
  - apply zeros_wf.
  - simpl. lia.
  - simpl. lia.
Defined.

Lemma _odeToPureTransition_remainder_witness :
  ∃ A',
    _odeToPureTransition insertion_keys first_elements fx_A
      (Some [(bSI, neg bSI); (gI, neg gI)]) (Some (zeros 3 3))
    = Ok (A', filter (λ tt : expr * expr,
                ¬ (Exists (λ a, _hasExpression a tt.2 = true) fx_A ∧
                   Exists (λ a, _hasExpression a tt.1 = true) fx_A))
                [(bSI, neg bSI); (gI, neg gI)]) ∧
    shaped_like (zeros 3 3) A'.
Proof.
  apply (_odeToPureTransition_remainder insertion_keys first_elements fx_A
           [(bSI, neg bSI); (gI, neg gI)] (zeros 3 3)).
  - apply zeros_wf.
  - simpl. lia.
  - simpl. lia.
Defined.

Lemma _singleOriginTransition_remainder_witness :
  ∃ A',
    _singleOriginTransition fx_A [(bSI, neg bSI); (gI, neg gI)] states_A
      (Some (zeros 3 3))
    = Ok (A', filter (λ tt : expr * expr,
                length (possibleOrigin_of states_A tt.1) ≠ 1%nat)
                [(bSI, neg bSI); (gI, neg gI)]) ∧
    shaped_like (zeros 3 3) A' ∧
    (∀ i, (i < cols (zeros 3 3))%nat →
          entry A' i i = entry (zeros 3 3) i i) ∧
    (∀ i j, (j < cols (zeros 3 3))%nat →
            (∀ tt, tt ∈ [(bSI, neg bSI); (gI, neg gI)] →
                   possibleOrigin_of states_A tt.1 ≠ [i]) →
            entry A' i j = entry (zeros 3 3) i j).
Proof.
  apply (_singleOriginTransition_remainder fx_A
           [(bSI, neg bSI); (gI, neg gI)] states_A (zeros 3 3)).
  - apply zeros_wf.
  - simpl. lia.
  - simpl. lia.
Defined.

Lemma _singleOriginTransition_raises_witness :
  _singleOriginTransition [gI] [(gI, neg gI)] ["S"; "I"] None
  = Raise IndexError.
Proof.
  apply (_singleOriginTransition_raises [gI] ["S"; "I"] gI (neg gI) 1).
  - by_computation.
  - simpl. lia.
  - apply Exists_cons_hd. by_computation.
Defined.
